(** * Design Pattern Visualizer: pattern catalog and code sandbox

    A shallow embedding of two library modules of the application:

    - [lib/patterns/index.ts] with the three data files it gathers
      ([creational.ts], [structural.ts], [behavioral.ts]): the static
      catalog and its two queries, [getPatternById] and
      [getPatternsByCategory];
    - [lib/code-execution/sandbox.ts]: the [CodeSandbox] class, that is
      [sanitizeOutput], [checkRateLimit] and [execute].

    The catalog is plain data and is embedded as it is shipped.  The
    sandbox runs on a JavaScript engine; what the engine does with a source
    text is a parameter of the development (see [Section Engine]).  The
    sandbox evaluates the text with a direct [eval] inside [execute], so a
    script reaches the locals of [execute] and the class itself; the
    effects of a script include those writes, and each statement about a
    run says which scripts it is about. *)

From Stdlib Require Import ZArith Ascii String DecimalString.
From stdpp Require Import base tactics option list strings.

Open Scope Z_scope.

(* ===================================================================== *)
(** ** The pattern catalog *)
(* ===================================================================== *)

Module Patterns.

(** [types/pattern.ts]: a union of three string literals. *)
Inductive PatternCategory := creational | structural | behavioral.

#[global] Instance PatternCategory_eq_dec : EqDecision PatternCategory.
Proof. solve_decision. Defined.

(** [types/pattern.ts], interface [Pattern].  The catalog queries read
    [id] and [category], and the cross references live in
    [relatedPatterns]; the remaining fields of the interface
    (description, intent, motivation, structure, participants,
    collaboration, consequences, implementation, useCases, example, code)
    are prose and code listings that no function of the catalog reads, so
    the embedding keeps the display [name] and leaves them out. *)
Record Pattern := {
  id : string;
  name : string;
  category : PatternCategory;
  relatedPatterns : list string
}.

#[global] Instance Pattern_eq_dec : EqDecision Pattern.
Proof. solve_decision. Defined.

(** *** [lib/patterns/creational.ts] *)

Definition singletonPattern : Pattern :=
  {| id := "singleton"; name := "Singleton"; category := creational;
     relatedPatterns := ["factory-method"; "abstract-factory"; "prototype"] |}.
Definition factoryMethodPattern : Pattern :=
  {| id := "factory-method"; name := "Factory Method"; category := creational;
     relatedPatterns := ["abstract-factory"; "prototype"; "singleton"] |}.
Definition builderPattern : Pattern :=
  {| id := "builder"; name := "Builder"; category := creational;
     relatedPatterns := ["abstract-factory"; "composite"] |}.
Definition abstractFactoryPattern : Pattern :=
  {| id := "abstract-factory"; name := "Abstract Factory"; category := creational;
     relatedPatterns := ["factory-method"; "singleton"; "prototype"] |}.
Definition prototypePattern : Pattern :=
  {| id := "prototype"; name := "Prototype"; category := creational;
     relatedPatterns := ["abstract-factory"; "composite"; "decorator"] |}.

Definition creationalPatterns : list Pattern :=
  [singletonPattern; factoryMethodPattern; builderPattern;
   abstractFactoryPattern; prototypePattern].

(** *** [lib/patterns/structural.ts] *)

Definition decoratorPattern : Pattern :=
  {| id := "decorator"; name := "Decorator"; category := structural;
     relatedPatterns := ["adapter"; "composite"; "strategy"] |}.
Definition adapterPattern : Pattern :=
  {| id := "adapter"; name := "Adapter"; category := structural;
     relatedPatterns := ["decorator"; "proxy"] |}.
Definition compositePattern : Pattern :=
  {| id := "composite"; name := "Composite"; category := structural;
     relatedPatterns := ["decorator"] |}.
Definition facadePattern : Pattern :=
  {| id := "facade"; name := "Facade"; category := structural;
     relatedPatterns := ["adapter"; "abstract-factory"] |}.
Definition proxyPattern : Pattern :=
  {| id := "proxy"; name := "Proxy"; category := structural;
     relatedPatterns := ["adapter"; "decorator"] |}.

Definition structuralPatterns : list Pattern :=
  [decoratorPattern; adapterPattern; compositePattern; facadePattern;
   proxyPattern].

(** *** [lib/patterns/behavioral.ts] *)

Definition observerPattern : Pattern :=
  {| id := "observer"; name := "Observer"; category := behavioral;
     relatedPatterns := ["singleton"] |}.
Definition strategyPattern : Pattern :=
  {| id := "strategy"; name := "Strategy"; category := behavioral;
     relatedPatterns := ["state"] |}.
Definition commandPattern : Pattern :=
  {| id := "command"; name := "Command"; category := behavioral;
     relatedPatterns := ["composite"; "prototype"] |}.
Definition statePattern : Pattern :=
  {| id := "state"; name := "State"; category := behavioral;
     relatedPatterns := ["strategy"; "singleton"] |}.

Definition behavioralPatterns : list Pattern :=
  [observerPattern; strategyPattern; commandPattern; statePattern].

(** *** [lib/patterns/index.ts] *)

Definition allPatterns : list Pattern :=
  creationalPatterns ++ structuralPatterns ++ behavioralPatterns.

(** [Array.prototype.find]: the first element that passes the test, or
    [undefined] (here [None]). *)
Definition find {A} (P : A → Prop) `{!∀ x, Decision (P x)}
    (l : list A) : option A :=
  snd <$> list_find P l.

Definition getPatternById (i : string) : option Pattern :=
  find (λ pattern, id pattern = i) allPatterns.

Definition getPatternsByCategory (c : PatternCategory) : list Pattern :=
  filter (λ pattern, category pattern = c) allPatterns.

End Patterns.

(* ===================================================================== *)
(** ** The JavaScript values the sandbox handles *)
(* ===================================================================== *)

(** The sandbox receives [unknown] values from the console calls of the
    evaluated code, and converts them with three built-ins of the
    language: [typeof], [String(...)] and [JSON.stringify(..., null, 2)].
    They are not code of the repository; this module models them after
    ECMA-262 on the values a script can build from literals: primitives,
    arrays and plain objects (an object is the list of its own enumerable
    properties in enumeration order; it has the prototype of an object
    literal and no [toString] or [toJSON] of its own).  Symbols,
    functions and objects with methods are not values of this module.  A
    [VNumber] carries an integer that [Number.prototype.toString] prints
    without an exponent. *)
Module JS.

#[local] Set Warnings "-register-all".

Inductive value :=
| VUndefined
| VNull
| VBoolean (b : bool)
| VNumber (n : Z)
| VBigInt (n : Z)
| VString (s : string)
| VArray (elems : list value)
| VObject (props : list (string * value)).

(** What a [throw] statement (or a failing built-in, [eval] included)
    hands to a [catch] clause: an instance of [Error] with a string as
    [message]; a value of this module; or something whose conversion to
    a string throws a [TypeError] with message [why] (an object without
    [toString], as [Object.create(null)], or an [Error] whose [message]
    is a symbol). *)
Inductive thrown :=
| ThrownError (message : string)
| ThrownValue (v : value)
| ThrownUnprintable (why : string).

Definition typeof (v : value) : string :=
  match v with
  | VUndefined => "undefined"
  | VNull => "object"
  | VBoolean _ => "boolean"
  | VNumber _ => "number"
  | VBigInt _ => "bigint"
  | VString _ => "string"
  | VArray _ => "object"
  | VObject _ => "object"
  end.

Definition is_null (v : value) : bool :=
  match v with VNull => true | _ => false end.

Definition dquote : ascii := "034"%char.
Definition backslash : ascii := "092"%char.
Definition newline : string := String "010"%char "".

Definition Z_to_string (n : Z) : string :=
  NilZero.string_of_int (Z.to_int n).

(** [Array.prototype.join] on an array of strings. *)
Definition join (sep : string) (l : list string) : string :=
  String.concat sep l.

(** [String(v)], that is the abstract operation ToString.  An array
    joins its elements with a comma, rendering [null] and [undefined]
    as the empty string; a plain object prints as [[object Object]]. *)
Fixpoint ToString (v : value) : string :=
  match v with
  | VUndefined => "undefined"
  | VNull => "null"
  | VBoolean b => if b then "true" else "false"
  | VNumber n => Z_to_string n
  | VBigInt n => Z_to_string n
  | VString s => s
  | VArray elems =>
      join "," (List.map (λ e, match e with
                               | VUndefined | VNull => ""
                               | _ => ToString e
                               end) elems)
  | VObject _ => "[object Object]"
  end.

Definition hex_digit (n : nat) : ascii :=
  match n with
  | 0 => "0" | 1 => "1" | 2 => "2" | 3 => "3" | 4 => "4" | 5 => "5"
  | 6 => "6" | 7 => "7" | 8 => "8" | 9 => "9" | 10 => "a" | 11 => "b"
  | 12 => "c" | 13 => "d" | 14 => "e" | _ => "f"
  end%char%nat.

(** QuoteJSONString, one code unit at a time: the two-character escapes,
    [\u00xx] for the other control characters, everything else as it
    is. *)
Definition quote_char (c : ascii) : string :=
  let n := nat_of_ascii c in
  if (n =? 8)%nat then String backslash "b"
  else if (n =? 9)%nat then String backslash "t"
  else if (n =? 10)%nat then String backslash "n"
  else if (n =? 12)%nat then String backslash "f"
  else if (n =? 13)%nat then String backslash "r"
  else if (n =? 34)%nat then String backslash (String dquote "")
  else if (n =? 92)%nat then String backslash (String backslash "")
  else if (n <? 32)%nat then
    String backslash
      ("u00" +:+ String (hex_digit (n / 16)) (String (hex_digit (n mod 16)) ""))
  else String c "".

Fixpoint quote_body (s : string) : string :=
  match s with
  | EmptyString => ""
  | String c s' => quote_char c +:+ quote_body s'
  end.

Definition QuoteJSONString (s : string) : string :=
  String dquote (quote_body s +:+ String dquote "").

(** The three results of SerializeJSONProperty: a [TypeError] (a BigInt
    cannot be serialized), [undefined], or the text. *)
Inductive ser := SerThrow | SerUndefined | SerText (s : string).

Definition gap : string := "  ".

(** The texts of the elements of an array, once each element is
    serialized: an [undefined] element prints as [null]; a [TypeError]
    in one element aborts the whole. *)
Fixpoint array_items (l : list ser) : option (list string) :=
  match l with
  | [] => Some []
  | SerThrow :: _ => None
  | SerUndefined :: l' => cons "null" <$> array_items l'
  | SerText s :: l' => cons s <$> array_items l'
  end.

(** The texts of the properties of an object, once each value is
    serialized: an [undefined] property is left out. *)
Fixpoint object_members (l : list (string * ser)) : option (list string) :=
  match l with
  | [] => Some []
  | (_, SerThrow) :: _ => None
  | (_, SerUndefined) :: l' => object_members l'
  | (k, SerText s) :: l' =>
      cons (QuoteJSONString k +:+ ": " +:+ s) <$> object_members l'
  end.

(** The last step of SerializeJSONArray and SerializeJSONObject: the
    texts between brackets, one per line, indented one gap deeper than
    the line the bracket closes on. *)
Definition wrap (opening closing stepback : string)
    (partial : option (list string)) : ser :=
  match partial with
  | None => SerThrow
  | Some [] => SerText (opening +:+ closing)
  | Some partial =>
      let indent := stepback +:+ gap in
      SerText (opening +:+ newline +:+ indent
               +:+ join ("," +:+ newline +:+ indent) partial
               +:+ newline +:+ stepback +:+ closing)
  end.

(** SerializeJSONProperty for a two-space gap, [indent] being the
    current indentation. *)
Fixpoint serialize (indent : string) (v : value) : ser :=
  match v with
  | VUndefined => SerUndefined
  | VNull => SerText "null"
  | VBoolean b => SerText (if b then "true" else "false")
  | VNumber n => SerText (Z_to_string n)
  | VBigInt _ => SerThrow
  | VString s => SerText (QuoteJSONString s)
  | VArray elems =>
      wrap "[" "]" indent
        (array_items (List.map (serialize (indent +:+ gap)) elems))
  | VObject props =>
      wrap "{" "}" indent
        (object_members
           (List.map (λ '(k, e), (k, serialize (indent +:+ gap) e)) props))
  end.

(** [JSON.stringify(v, null, 2)]. *)
Definition JSON_stringify (v : value) : ser := serialize "" v.

(** [String.prototype.replace] with a global one-character pattern
    ([/c/g]) and a replacement text without [$]. *)
Fixpoint replace_all (c : ascii) (by_ : string) (s : string) : string :=
  match s with
  | EmptyString => ""
  | String a s' =>
      (if Ascii.eqb a c then by_ else String a "") +:+ replace_all c by_ s'
  end.

(** [String.prototype.includes]. *)
Fixpoint includes (sub s : string) : bool :=
  String.prefix sub s ||
  match s with
  | EmptyString => false
  | String _ s' => includes sub s'
  end.

End JS.

(* ===================================================================== *)
(** ** The host: console, clock, timers, and what a script does *)
(* ===================================================================== *)

Module Host.
Import JS.

#[local] Set Warnings "-register-all".

(** The three methods of the global [console] that the sandbox
    replaces. *)
Inductive method := console_log | console_error | console_warn.

(** A function value that can sit in one of these slots: a function of
    the environment (the native method, or any function a script made),
    known by a number, or the closure that [CodeSandbox.execute] builds
    for a method. *)
Inductive fn :=
| Native (n : nat)
| Capture (m : method).

(** The three slots, taken as ordinary writable properties. *)
Record Console := {
  log : fn;
  error : fn;
  warn : fn
}.

Definition get (m : method) (c : Console) : fn :=
  match m with
  | console_log => log c
  | console_error => error c
  | console_warn => warn c
  end.

Definition set (m : method) (f : fn) (c : Console) : Console :=
  match m with
  | console_log => {| log := f; error := error c; warn := warn c |}
  | console_error => {| log := log c; error := f; warn := warn c |}
  | console_warn => {| log := log c; error := error c; warn := f |}
  end.

(** What running a script does, as far as the sandbox can tell, in
    program order.  The first four act through the globals: the script
    calls a console method, assigns one, computes for a while, or arms a
    timer of its own whose callback runs in a later turn of the event
    loop.  The other six are open to the script because its text is
    evaluated by a direct [eval] inside [execute]: it can assign the
    local [completed], push onto the local array [logs], call the
    [resolve] of the promise, clear the timer of the call, and, through
    [this], assign the static field [lastExecution] and the static
    method [sanitizeOutput] of the class.  The list is not exhaustive
    (a script can also redefine the properties of [console] or of the
    class); a statement that holds only for scripts that keep to some of
    these effects says so. *)
Inductive effect :=
| Call (m : method) (args : list value)
| Assign (m : method) (f : fn)
| Work (ms : N)
| SetTimeout (delay : N) (callback : list effect)
| SetCompleted (b : bool)
| LogsPush (line : string)
| CallResolve (output : list string) (error : option string)
| ClearTimeout
| SetLastExecution (t : Z)
| SetSanitizeOutput (f : value → string).

(** How the synchronous run of a script ends: it returns, it throws, or
    it never ends. *)
Inductive completion :=
| Normal
| Abrupt (t : thrown)
| Never.

(** The behaviour of a script: the effects of its synchronous run and
    how that run ends.  When the run never ends, [effects] are those it
    performs before it stops touching the console and the timers. *)
Record behaviour := {
  effects : list effect;
  ending : completion
}.

(** The globals one call of the sandbox reads and writes: the clock
    behind [Date.now()], the [console] object, the static field
    [CodeSandbox.lastExecution], the timers armed by scripts (due time
    and callback, in the order they were armed) that have not run yet,
    and the function a script has put in place of
    [CodeSandbox.sanitizeOutput], if any. *)
Record World := {
  now : Z;
  console : Console;
  lastExecution : Z;
  timers : list (Z * list effect);
  replaced_sanitizeOutput : option (value → string)
}.

Definition with_now (t : Z) (w : World) : World :=
  {| now := t; console := console w; lastExecution := lastExecution w;
     timers := timers w;
     replaced_sanitizeOutput := replaced_sanitizeOutput w |}.

Definition with_console (c : Console) (w : World) : World :=
  {| now := now w; console := c; lastExecution := lastExecution w;
     timers := timers w;
     replaced_sanitizeOutput := replaced_sanitizeOutput w |}.

Definition with_lastExecution (t : Z) (w : World) : World :=
  {| now := now w; console := console w; lastExecution := t;
     timers := timers w;
     replaced_sanitizeOutput := replaced_sanitizeOutput w |}.

Definition with_timers (ts : list (Z * list effect)) (w : World) : World :=
  {| now := now w; console := console w; lastExecution := lastExecution w;
     timers := ts;
     replaced_sanitizeOutput := replaced_sanitizeOutput w |}.

Definition with_sanitizeOutput (f : value → string) (w : World) : World :=
  {| now := now w; console := console w; lastExecution := lastExecution w;
     timers := timers w;
     replaced_sanitizeOutput := Some f |}.

(** The timer that is due first, the one armed first among equals, and
    the timers left. *)
Fixpoint next_timer (ts : list (Z * list effect))
    : option ((Z * list effect) * list (Z * list effect)) :=
  match ts with
  | [] => None
  | t :: ts' =>
      match next_timer ts' with
      | Some (t', rest) =>
          if t'.1 <? t.1 then Some (t', t :: rest) else Some (t, ts')
      | None => Some (t, [])
      end
  end.

(** The number of timers an effect can arm, those of its callbacks
    included. *)
Fixpoint timers_in (e : effect) : nat :=
  match e with
  | SetTimeout _ callback => S (list_sum (List.map timers_in callback))
  | _ => 0%nat
  end.

End Host.

(* ===================================================================== *)
(** ** [lib/code-execution/sandbox.ts] *)
(* ===================================================================== *)

Module CodeSandbox.
Import JS Host.

Record ExecutionResult := {
  output : list string;
  error : option string
}.

Definition EXECUTION_TIMEOUT : Z := 5000.
Definition MIN_EXECUTION_INTERVAL : Z := 1000.

(** [sanitizeOutput].  The three tests of the source in order: a string
    goes through the five replacements; a non-null object goes to
    [JSON.stringify], and to [String] when that throws; anything else goes
    to [String].  ([JSON.stringify] returning [undefined] does not happen
    for an object of this model; the caller would print it as the empty
    string, through [Array.prototype.join].) *)
Definition sanitizeOutput (value : value) : string :=
  match value with
  | VString value =>
      replace_all "/" "&#x2F;"
        (replace_all "'" "&#x27;"
           (replace_all dquote "&quot;"
              (replace_all ">" "&gt;"
                 (replace_all "<" "&lt;" value))))
  | _ =>
      if (typeof value =? "object")%string && negb (is_null value) then
        match JSON_stringify value with
        | SerText s => s
        | SerUndefined => ""
        | SerThrow => ToString value
        end
      else ToString value
  end.

(** [checkRateLimit]: the verdict and the globals after it. *)
Definition checkRateLimit (w : World) : bool * World :=
  let now := now w in
  if now - lastExecution w <? MIN_EXECUTION_INTERVAL then (false, w)
  else (true, with_lastExecution now w).

(** The locals of one call of [execute]: the [logs] array, the
    [completed] flag, the pending timer of the call (its due time), and
    every result handed to [resolve], oldest first; the promise settles
    with the first of them and ignores the others. *)
Record Frame := {
  logs : list string;
  completed : bool;
  timeoutId : option Z;
  resolutions : list ExecutionResult
}.

Definition push (line : string) (fr : Frame) : Frame :=
  {| logs := logs fr ++ [line]; completed := completed fr;
     timeoutId := timeoutId fr; resolutions := resolutions fr |}.

Definition set_completed (b : bool) (fr : Frame) : Frame :=
  {| logs := logs fr; completed := b;
     timeoutId := timeoutId fr; resolutions := resolutions fr |}.

Definition setTimeout (due : Z) (fr : Frame) : Frame :=
  {| logs := logs fr; completed := completed fr;
     timeoutId := Some due; resolutions := resolutions fr |}.

Definition clearTimeout (fr : Frame) : Frame :=
  {| logs := logs fr; completed := completed fr;
     timeoutId := None; resolutions := resolutions fr |}.

(** [resolve(r)].  A result built by [execute] holds the [logs] array
    itself; here it holds the lines of the array at that moment, which
    is what the caller finds when the promise settles.  The array lives
    on in the locals of the call: what it holds after further turns of
    the event loop is given by [later] below. *)
Definition resolve (r : ExecutionResult) (fr : Frame) : Frame :=
  {| logs := logs fr; completed := completed fr;
     timeoutId := timeoutId fr; resolutions := resolutions fr ++ [r] |}.

Definition rate_limit_message : string :=
  "Please wait before running code again (rate limit: 1 execution per second)".
Definition timeout_message : string :=
  "Execution timeout: Code took longer than 5 seconds to execute".

(** The text each replacement method puts in front of the line. *)
Definition prefix (m : method) : string :=
  match m with
  | console_log => ""
  | console_error => "ERROR: "
  | console_warn => "WARNING: "
  end.

(** The line a replacement method stores for one call. *)
Definition capture (m : method) (args : list value) : string :=
  prefix m +:+ join " " (List.map (λ arg, sanitizeOutput arg) args).

(** The same line when [this.sanitizeOutput] is the function
    [sanitize]: the replacement methods look the method up on the class
    each time they run. *)
Definition capture_with (sanitize : value → string) (m : method)
    (args : list value) : string :=
  prefix m +:+ join " " (List.map (λ arg, sanitize arg) args).

(** What [this.sanitizeOutput] is at the moment: the method of the
    class, unless a script has assigned the property. *)
Definition current_sanitizeOutput (w : World) : value → string :=
  default sanitizeOutput (replaced_sanitizeOutput w).

(** The three replacement methods. *)
Definition captures : Console :=
  {| log := Capture console_log;
     Host.error := Capture console_error;
     warn := Capture console_warn |}.

(** Calling whatever function a console slot holds. *)
Definition call (sanitize : value → string) (f : fn) (args : list value)
    (fr : Frame) : Frame :=
  match f with
  | Capture m => push (capture_with sanitize m args) fr
  | Native _ => fr
  end.

(** One effect of the script, on the globals and on the locals of the
    call: a console call runs the function the slot holds at that
    moment. *)
Definition step (e : effect) (st : World * Frame) : World * Frame :=
  let (w, fr) := st in
  match e with
  | Call m args =>
      (w, call (current_sanitizeOutput w) (get m (console w)) args fr)
  | Assign m f => (with_console (set m f (console w)) w, fr)
  | Work ms => (with_now (now w + Z.of_N ms) w, fr)
  | SetTimeout delay callback =>
      (with_timers (timers w ++ [(now w + Z.of_N delay, callback)]) w, fr)
  | SetCompleted b => (w, set_completed b fr)
  | LogsPush line => (w, push line fr)
  | CallResolve output error =>
      (w, resolve {| output := output; error := error |} fr)
  | ClearTimeout => (w, clearTimeout fr)
  | SetLastExecution t => (with_lastExecution t w, fr)
  | SetSanitizeOutput f => (with_sanitizeOutput f w, fr)
  end.

(** The effects of a script, in program order. *)
Definition run (es : list effect) (st : World * Frame) : World * Frame :=
  foldl (λ st e, step e st) st es.

(** The message of the catch branch:
    [error instanceof Error ? error.message : String(error)], put in a
    template literal.  [None] when the conversion throws. *)
Definition thrown_text (t : thrown) : option string :=
  match t with
  | ThrownError message => Some message
  | ThrownValue v => Some (ToString v)
  | ThrownUnprintable _ => None
  end.

(** What the caller of [execute] gets.  The promise resolves with a
    result, the globals being [w] at that moment; or the call never
    returns, because the script runs for ever inside it; or the promise
    is rejected; or the promise is returned and never settles. *)
Inductive Outcome :=
| Resolved (r : ExecutionResult) (w : World)
| Hangs
| Rejected (reason : thrown) (w : World)
| Pending (w : World).

(** The callback handed to [setTimeout]. *)
Definition on_timeout (originals : Console) (st : World * Frame)
    : World * Frame :=
  let (w, fr) := st in
  if negb (completed fr) then
    let fr := set_completed true fr in
    let w := with_console originals w in
    (w, resolve {| output := logs fr; error := Some timeout_message |} fr)
  else st.

(** The end of the [try] block, after [restrictedEval] returned. *)
Definition on_return (originals : Console) (st : World * Frame)
    : World * Frame :=
  let (w, fr) := st in
  if negb (completed fr) then
    let fr := clearTimeout (set_completed true fr) in
    let w := with_console originals w in
    (w, resolve {| output := logs fr; error := None |} fr)
  else st.

(** The [catch] block.  When what was thrown has no string form, the
    argument of [resolve] throws and [resolve] is not called. *)
Definition on_throw (originals : Console) (t : thrown)
    (st : World * Frame) : World * Frame :=
  let (w, fr) := st in
  if negb (completed fr) then
    let fr := clearTimeout (set_completed true fr) in
    let w := with_console originals w in
    match thrown_text t with
    | Some text =>
        (w, resolve {| output := logs fr;
                       error := Some ("Error: " +:+ text) |} fr)
    | None => (w, fr)
    end
  else st.

(** What leaves the [catch] block as an exception, in the state the
    block is entered in: the [TypeError] of the conversion. *)
Definition escapes (t : thrown) (st : World * Frame) : option thrown :=
  if negb (completed st.2) then
    match t with
    | ThrownUnprintable why => Some (ThrownError why)
    | _ => None
    end
  else None.

(** One turn of the event loop: the timer that is due first runs, a
    timer of the script (its callback has the scope of the script, so it
    acts on the locals of this call) or the timer of the call; of two
    timers due together the timer of the call runs first, being armed
    first.  [None] when no timer is left.  The timers pending in the
    globals are taken to be those of the script of this call. *)
Definition turn (originals : Console) (st : World * Frame)
    : option (World * Frame) :=
  let (w, fr) := st in
  let script (t : Z * list effect) rest :=
    run t.2 (with_timers rest (with_now (Z.max (now w) t.1) w), fr) in
  let mine due :=
    on_timeout originals (with_now (Z.max (now w) due) w, clearTimeout fr) in
  match next_timer (timers w), timeoutId fr with
  | Some (t, rest), Some due =>
      Some (if t.1 <? due then script t rest else mine due)
  | Some (t, rest), None => Some (script t rest)
  | None, Some due => Some (mine due)
  | None, None => None
  end.

(** The turns of the event loop after the executor, as long as the
    promise is pending.  [fuel] bounds the number of turns; [budget]
    below is enough of it. *)
Fixpoint event_loop (fuel : nat) (originals : Console)
    (st : World * Frame) : Outcome :=
  match resolutions st.2 with
  | r :: _ => Resolved r st.1
  | [] =>
      match fuel with
      | O => Pending st.1
      | S fuel =>
          match turn originals st with
          | Some st => event_loop fuel originals st
          | None => Pending st.1
          end
      end
  end.

(** The globals and the locals of the call [n] turns of the event loop
    later, whether the promise has settled or not: the [logs] array, in
    particular, which every result of the call holds and which a
    replacement method the script kept can still push onto. *)
Fixpoint later (n : nat) (originals : Console) (st : World * Frame)
    : World * Frame :=
  match n with
  | O => st
  | S n =>
      match turn originals st with
      | Some st => later n originals st
      | None => st
      end
  end.

(** The turns one armed timer can cost: its own, and one for each timer
    its callback can arm. *)
Definition timer_weight (t : Z * list effect) : nat :=
  S (list_sum (List.map timers_in t.2)).

(** The timers that are armed or can get armed: those of the script and
    the timer of the call. *)
Definition pending_turns (st : World * Frame) : nat :=
  (list_sum (List.map timer_weight (timers st.1))
   + match timeoutId st.2 with Some _ => 1 | None => 0 end)%nat.

(** Turns enough to run every timer that is armed or can get armed. *)
Definition budget (st : World * Frame) : nat :=
  S (list_sum (List.map timer_weight (timers st.1))).

(** What the caller of the promise sees.  JavaScript runs the executor
    to its end before anything else: if [resolve] was called by then,
    the promise settles with the first result; if not and the executor
    threw, the promise is rejected; if neither, the event loop goes
    on. *)
Definition settle (originals : Console) (raised : option thrown)
    (st : World * Frame) : Outcome :=
  match resolutions st.2, raised with
  | r :: _, _ => Resolved r st.1
  | [], Some reason => Rejected reason st.1
  | [], None => event_loop (budget st) originals st
  end.

Section Engine.

(** The engine's [eval]: the behaviour of each source text, in the
    scope [restrictedEval] gives it (a script that reads one of the
    six shadowed names finds [undefined]).  A text that does not parse
    throws a [SyntaxError]. *)
Variable eval : string → behaviour.

(** [restrictedEval(code)]: [None] when the call never returns, else
    the state it leaves and what it threw, if anything. *)
Definition restrictedEval (code : string) (st : World * Frame)
    : option (World * Frame * option thrown) :=
  match ending (eval code) with
  | Never => None
  | Normal => Some (run (effects (eval code)) st, None)
  | Abrupt t => Some (run (effects (eval code)) st, Some t)
  end.

(** The function given to [new Promise]: it arms the timer, evaluates
    the script and handles its return or its exception, all in one
    synchronous run.  [None] when that run never ends; else the state
    it leaves and the exception that leaves it, if any. *)
Definition executor (code : string) (originals : Console)
    (st : World * Frame) : option (World * Frame * option thrown) :=
  let (w, fr) := st in
  let fr := setTimeout (now w + EXECUTION_TIMEOUT) (set_completed false fr) in
  match restrictedEval code (w, fr) with
  | None => None
  | Some (st, None) => Some (on_return originals st, None)
  | Some (st, Some t) => Some (on_throw originals t st, escapes t st)
  end.

(** [execute].  [originals] stands for the three constants
    [originalLog], [originalError] and [originalWarn]. *)
Definition execute (code : string) (w : World) : Outcome :=
  let (ok, w) := checkRateLimit w in
  if negb ok then
    Resolved {| output := []; error := Some rate_limit_message |} w
  else
    let fr := {| logs := []; completed := false; timeoutId := None;
                 resolutions := [] |} in
    let originals := console w in
    let w := with_console captures w in
    match executor code originals (w, fr) with
    | None => Hangs
    | Some (st, raised) => settle originals raised st
    end.

End Engine.
End CodeSandbox.

(* ===================================================================== *)
(** ** Example scripts *)
(* ===================================================================== *)

Module Scripts.
Import JS Host CodeSandbox.

Definition logs_markup : string := "console.log('<script>')".
Definition logs_object : string := "console.log({ html: '<script>' })".
Definition throws_boom : string := "console.log('<b>'); throw new Error('boom')".
Definition endless_loop : string := "while (true) {}".
Definition six_seconds : string :=
  "console.warn('go'); const t = Date.now(); while (Date.now() - t < 6000) {}".
Definition late_log : string :=
  "setTimeout(() => console.log('late'), 6000)".
Definition resets_stamp : string := "this.lastExecution = 0".
Definition replaces_sanitizer : string :=
  "this.sanitizeOutput = String; console.log('<script>')".
Definition resolves_early : string :=
  "resolve({ output: [] }); completed = true".
Definition resolves_empty_error : string :=
  "resolve({ output: [], error: '' }); completed = true".
Definition pushes_raw : string := "logs.push('<script>')".
Definition gives_up : string := "completed = true".
Definition gives_up_and_throws : string := "completed = true; throw 1".
Definition throws_bare : string := "throw Object.create(null)".
Definition rearms : string :=
  "completed = true; setTimeout(() => { completed = false }, 10)".
Definition keeps_method : string :=
  "const kept = console.log; setTimeout(() => { console.log = kept; console.log('<late>') }, 10)".

(** An engine that knows the example scripts: what a JavaScript engine
    does with each of them.  To any other text it gives the behaviour of
    the empty script. *)
Definition engine (code : string) : behaviour :=
  if decide (code = logs_markup) then
    {| effects := [Call console_log [VString "<script>"]];
       ending := Normal |}
  else if decide (code = logs_object) then
    {| effects := [Call console_log [VObject [("html", VString "<script>")]]];
       ending := Normal |}
  else if decide (code = throws_boom) then
    {| effects := [Call console_log [VString "<b>"]];
       ending := Abrupt (ThrownError "boom") |}
  else if decide (code = endless_loop) then
    {| effects := []; ending := Never |}
  else if decide (code = six_seconds) then
    {| effects := [Call console_warn [VString "go"]; Work 6000];
       ending := Normal |}
  else if decide (code = late_log) then
    {| effects := [SetTimeout 6000 [Call console_log [VString "late"]]];
       ending := Normal |}
  else if decide (code = resets_stamp) then
    {| effects := [SetLastExecution 0]; ending := Normal |}
  else if decide (code = replaces_sanitizer) then
    {| effects := [SetSanitizeOutput ToString;
                   Call console_log [VString "<script>"]];
       ending := Normal |}
  else if decide (code = resolves_early) then
    {| effects := [CallResolve [] None; SetCompleted true];
       ending := Normal |}
  else if decide (code = resolves_empty_error) then
    {| effects := [CallResolve [] (Some ""); SetCompleted true];
       ending := Normal |}
  else if decide (code = pushes_raw) then
    {| effects := [LogsPush "<script>"]; ending := Normal |}
  else if decide (code = gives_up) then
    {| effects := [SetCompleted true]; ending := Normal |}
  else if decide (code = gives_up_and_throws) then
    {| effects := [SetCompleted true];
       ending := Abrupt (ThrownValue (VNumber 1)) |}
  else if decide (code = throws_bare) then
    {| effects := [];
       ending := Abrupt (ThrownUnprintable
                           "Cannot convert object to primitive value") |}
  else if decide (code = rearms) then
    {| effects := [SetCompleted true; SetTimeout 10 [SetCompleted false]];
       ending := Normal |}
  else if decide (code = keeps_method) then
    {| effects := [SetTimeout 10 [Assign console_log (Capture console_log);
                                  Call console_log [VString "<late>"]]];
       ending := Normal |}
  else {| effects := []; ending := Normal |}.

Definition native : Console :=
  {| log := Native 0; Host.error := Native 1; warn := Native 2 |}.

(** The globals of a page at time [t] (milliseconds since the epoch)
    whose last accepted execution was at time [last]. *)
Definition page (t last : Z) : World :=
  {| now := t; console := native; lastExecution := last; timers := [];
     replaced_sanitizeOutput := None |}.

End Scripts.

(* ===================================================================== *)
(** ** The specification's vocabulary *)
(* ===================================================================== *)

Module Spec.
Import JS Host CodeSandbox.

(** The five characters the specification calls HTML-significant. *)
Definition html_significant (c : ascii) : bool :=
  Ascii.eqb c "<" || Ascii.eqb c ">" || Ascii.eqb c dquote
  || Ascii.eqb c "'" || Ascii.eqb c "/".

(** The entity that stands for a character, following the
    specification: each of the five characters is replaced with its
    entity, any other character stays. *)
Definition entity (c : ascii) : string :=
  if Ascii.eqb c "<" then "&lt;"
  else if Ascii.eqb c ">" then "&gt;"
  else if Ascii.eqb c dquote then "&quot;"
  else if Ascii.eqb c "'" then "&#x27;"
  else if Ascii.eqb c "/" then "&#x2F;"
  else String c "".

Fixpoint escape_html (s : string) : string :=
  match s with
  | EmptyString => ""
  | String c s' => entity c +:+ escape_html s'
  end.

(** The character [c] occurs in [s]. *)
Fixpoint occurs (c : ascii) (s : string) : bool :=
  match s with
  | EmptyString => false
  | String a s' => Ascii.eqb a c || occurs c s'
  end.

(** A request is accepted when it passes the rate check. *)
Definition accepted (w : World) : Prop :=
  MIN_EXECUTION_INTERVAL ≤ now w - lastExecution w.

(** The globals and the locals when [restrictedEval] is called in an
    accepted call of [execute] made in [w]: the time stamp is taken, the
    replacement methods are installed, nothing is logged, the timer is
    armed. *)
Definition entry (w : World) : World * Frame :=
  (with_console captures (with_lastExecution (now w) w),
   {| logs := []; completed := false;
      timeoutId := Some (now w + EXECUTION_TIMEOUT); resolutions := [] |}).

(** The locals the promise executor starts from. *)
Definition fresh : Frame :=
  {| logs := []; completed := false; timeoutId := None; resolutions := [] |}.

(** The lines the replacement methods store for the console calls of a
    script, in call order. *)
Definition console_lines (es : list effect) : list string :=
  omap (λ e, match e with
             | Call m args => Some (capture m args)
             | _ => None
             end) es.

(** The state [st'] has the flag, the timer, the results and the time
    stamp of [st]. *)
Definition same_control (st st' : World * Frame) : Prop :=
  completed st'.2 = completed st.2
  ∧ timeoutId st'.2 = timeoutId st.2
  ∧ resolutions st'.2 = resolutions st.2
  ∧ lastExecution st'.1 = lastExecution st.1.

(** The line was stored by a replacement method for a console call of
    the script. *)
Definition stored_for (es : list effect) (line : string) : Prop :=
  ∃ m m' args, Call m' args ∈ es ∧ line = capture m args.

(** The time the synchronous run of a script takes, in milliseconds. *)
Definition busy_time (es : list effect) : Z :=
  foldr (λ e t, match e with Work ms => Z.of_N ms + t | _ => t end) 0 es.

(** The string [s] is the value of a property of the object, or an
    element of the array. *)
Definition string_field (v : value) (s : string) : Prop :=
  match v with
  | VObject props => ∃ k, (k, VString s) ∈ props
  | VArray elems => VString s ∈ elems
  | _ => False
  end.

(** The script leaves the console methods alone. *)
Definition keeps_console (es : list effect) : Prop :=
  ∀ m f, Assign m f ∉ es.

(** An effect through the globals: a console call, the assignment of a
    console method, computing, arming a timer whose callback has only
    such effects in its turn.  The other effects write the locals of
    [execute] or the fields of the class. *)
Fixpoint plain (e : effect) : bool :=
  match e with
  | Call _ _ | Assign _ _ | Work _ => true
  | SetTimeout _ callback => forallb plain callback
  | _ => false
  end.

(** The script acts through the globals only: its synchronous run and
    the callbacks of its timers have only such effects. *)
Definition plain_script (es : list effect) : Prop :=
  Forall (λ e, plain e = true) es.

(** The argument lists of the console calls of an effect, those of the
    callbacks of its timers included. *)
Fixpoint calls_in (e : effect) : list (list value) :=
  match e with
  | Call _ args => [args]
  | SetTimeout _ callback => flat_map calls_in callback
  | _ => []
  end.

Definition all_calls (es : list effect) : list (list value) :=
  flat_map calls_in es.

(** The line was stored by a replacement method for a console call of
    the script or of a callback of its timers. *)
Definition stored_by_script (es : list effect) (line : string) : Prop :=
  ∃ m args, args ∈ all_calls es ∧ line = capture m args.

(** No script has put another function in place of
    [CodeSandbox.sanitizeOutput]. *)
Definition own_sanitizeOutput (w : World) : Prop :=
  replaced_sanitizeOutput w = None.

(** The state of a call whose script acts through the globals only and
    makes console calls with argument lists among [allowed]:
    [sanitizeOutput] is the method of the class, the timers that are
    armed are of that kind, and every line of [logs] was stored by a
    replacement method for such a call. *)
Definition kept_to (allowed : list (list value)) (st : World * Frame)
    : Prop :=
  own_sanitizeOutput st.1
  ∧ Forall (λ t : Z * list effect,
              plain_script t.2 ∧ all_calls t.2 ⊆ allowed) (timers st.1)
  ∧ Forall (λ line, ∃ m args, args ∈ allowed ∧ line = capture m args)
      (logs st.2).

(** The success and the failure shape of a result. *)
Definition is_success (r : ExecutionResult) : Prop := error r = None.
Definition is_failure (r : ExecutionResult) : Prop :=
  ∃ msg, error r = Some msg ∧ msg ≠ "".

End Spec.

(* ===================================================================== *)
(** ** The pages that read the catalog *)
(* ===================================================================== *)

(** The list page [PatternsPage], the page of one pattern [PatternPage]
    with its [generateStaticParams], and
    [components/pattern/pattern-card.tsx].  The components return markup;
    the embedding keeps what they compute from the catalog: which page
    exists, which lists and numbers are shown, where each link goes and
    what it is labelled. *)
Module Pages.
Import Patterns.

(** The badge variants the pages use for a category. *)
Inductive variant := primary | secondary | accent.

(** The table [categoryColors], the same in [PatternCard] and in
    [PatternPage]. *)
Definition categoryColors (c : PatternCategory) : variant :=
  match c with
  | creational => primary
  | structural => secondary
  | behavioral => accent
  end.

Record Link := {
  href : string;
  label : string
}.

(** [PatternCard]: a link to the page of the pattern, labelled with its
    name. *)
Definition PatternCard (pattern : Pattern) : Link :=
  {| href := "/patterns/" +:+ id pattern; label := name pattern |}.

(** [PatternsPage]: the numbers of the four badges, and the sections
    rendered, in page order, each with its cards.  A section is rendered
    when its list is not empty. *)
Record PatternsView := {
  badges : nat * nat * nat * nat;
  sections : list (PatternCategory * list Link)
}.

Definition section (c : PatternCategory) (patterns : list Pattern)
    : list (PatternCategory * list Link) :=
  if bool_decide (0 < length patterns)%nat
  then [(c, PatternCard <$> patterns)]
  else [].

Definition PatternsPage : PatternsView :=
  let creationalPatterns := getPatternsByCategory creational in
  let structuralPatterns := getPatternsByCategory structural in
  let behavioralPatterns := getPatternsByCategory behavioral in
  {| badges := (length creationalPatterns, length structuralPatterns,
                length behavioralPatterns, length allPatterns);
     sections := section creational creationalPatterns
                 ++ section structural structuralPatterns
                 ++ section behavioral behavioralPatterns |}.

(** [generateStaticParams]: the [slug] of each page to build. *)
Definition generateStaticParams : list string :=
  (λ pattern, id pattern) <$> allPatterns.

(** The badge of a related pattern on [PatternPage]: a link when the
    identifier is found, nothing ([null]) when it is not. *)
Definition relatedBadge (relatedId : string) : option Link :=
  match getPatternById relatedId with
  | Some relatedPattern =>
      Some {| href := "/patterns/" +:+ relatedId;
              label := name relatedPattern |}
  | None => None
  end.

(** What [PatternPage] shows of the pattern: its name as heading, its
    category on a badge of the variant of the category, and the box of
    related patterns, rendered when the list is not empty. *)
Record PatternView := {
  heading : string;
  badge : variant * PatternCategory;
  related : option (list (option Link))
}.

(** [PatternPage]: [None] when it calls [notFound()]. *)
Definition PatternPage (slug : string) : option PatternView :=
  match getPatternById slug with
  | None => None
  | Some pattern =>
      Some {| heading := name pattern;
              badge := (categoryColors (category pattern), category pattern);
              related :=
                if bool_decide (0 < length (relatedPatterns pattern))%nat
                then Some (relatedBadge <$> relatedPatterns pattern)
                else None |}
  end.

End Pages.

(* ===================================================================== *)
(** ** [components/pattern/code-playground.tsx] *)
(* ===================================================================== *)

(** The state of the [CodePlayground] component and its two handlers.
    [pattern.code], the only field of the pattern the component reads, is
    an argument. *)
Module CodePlayground.
Import JS Host.

(** The four [useState] cells. *)
Record State := {
  code : string;
  output : list string;
  error : option string;
  isRunning : bool
}.

Definition mount (pattern_code : string) : State :=
  {| code := pattern_code; output := []; error := None; isRunning := false |}.

(** [if (result.error)] and [error &&]: an absent or empty string is
    falsy. *)
Definition truthy (e : option string) : bool :=
  match e with
  | Some s => negb (s =? "")%string
  | None => false
  end.

(** [runCode] up to the [await]. *)
Definition started (ui : State) : State :=
  {| code := code ui; output := []; error := None; isRunning := true |}.

(** [runCode] after the [await], when the promise resolved: the [try]
    block and the [finally] block. *)
Definition finished (result : CodeSandbox.ExecutionResult) (ui : State)
    : State :=
  {| code := code ui;
     output := CodeSandbox.output result;
     error := if truthy (CodeSandbox.error result)
              then CodeSandbox.error result else error ui;
     isRunning := false |}.

(** [runCode] after the [await], when the promise was rejected: the
    [catch] block and the [finally] block.  (When the reason has no
    string form the [catch] block throws in its turn and only the
    [finally] block takes effect.) *)
Definition failed (err : thrown) (ui : State) : State :=
  {| code := code ui;
     output := output ui;
     error := match CodeSandbox.thrown_text err with
              | Some text => Some ("Unexpected error: " +:+ text)
              | None => error ui
              end;
     isRunning := false |}.

(** [runCode], called in the state [ui] that is on screen: the state on
    screen afterwards, and the globals when the promise of [execute]
    settled.  [execute] runs the script inside the click handler: when
    the script never ends the handler never returns, no update is
    committed and the screen stays as it is.  When the promise never
    settles, the first three updates are all that happens. *)
Definition runCode (eval : string → behaviour) (w : World) (ui : State)
    : State * option World :=
  match CodeSandbox.execute eval (code ui) w with
  | CodeSandbox.Resolved result w' => (finished result (started ui), Some w')
  | CodeSandbox.Rejected reason w' => (failed reason (started ui), Some w')
  | CodeSandbox.Pending _ => (started ui, None)
  | CodeSandbox.Hangs => (ui, None)
  end.

(** [resetCode]. *)
Definition resetCode (pattern_code : string) (ui : State) : State :=
  {| code := pattern_code; output := []; error := error ui;
     isRunning := isRunning ui |}.

(** The editor's [onChange]. *)
Definition setCode (value : string) (ui : State) : State :=
  {| code := value; output := output ui; error := error ui;
     isRunning := isRunning ui |}.

(** What is rendered: both buttons are disabled while running; the
    output card is there when there is a line or an error; each line of
    [output] becomes the inner HTML of an element. *)
Definition buttons_disabled (ui : State) : bool := isRunning ui.

Definition output_card (ui : State) : bool :=
  bool_decide (0 < length (output ui))%nat || truthy (error ui).

Definition inner_html (ui : State) : list string := output ui.

End CodePlayground.

(* ===================================================================== *)
(** ** More vocabulary *)
(* ===================================================================== *)

Module Terms.
Import JS Host CodeSandbox Spec.

(** None of the five characters occurs in [s]. *)
Definition clean (s : string) : Prop :=
  ∀ c, html_significant c = true → occurs c s = false.

(** One of the six kinds of value of this development that are not an
    array or a plain object: undefined, null, a boolean, a number, a
    BigInt, a string. *)
Definition flat (v : value) : bool :=
  match v with
  | VArray _ | VObject _ => false
  | _ => true
  end.

(** Every console call of the script, in its synchronous run or in a
    callback of its timers, hands values of these six kinds only. *)
Definition logs_flat_values (es : list effect) : Prop :=
  Forall (Forall (λ v, flat v = true)) (all_calls es).

(** One of the three handlers that can settle the promise of a call. *)
Inductive handler :=
| AtReturn
| AtThrow (t : thrown)
| AtTimeout.

Definition handle (originals : Console) (h : handler)
    (st : World * Frame) : World * Frame :=
  match h with
  | AtReturn => on_return originals st
  | AtThrow t => on_throw originals t st
  | AtTimeout => on_timeout originals st
  end.

(** The claims about every run of [execute], as the specification words
    them, for the scripts this development can tell apart. *)


(** A script that logs a string gets the escaped string as a line. *)
Definition escaping_as_claimed : Prop :=
  ∀ (eval : string → behaviour) code w s,
    accepted w → own_sanitizeOutput w →
    ending (eval code) = Normal → keeps_console (effects (eval code)) →
    Call console_log [VString s] ∈ effects (eval code) →
    ∃ r w', execute eval code w = Resolved r w'
            ∧ escape_html s ∈ output r.


(** A script that throws makes the call resolve, never raise. *)
Definition resolves_as_claimed : Prop :=
  ∀ (eval : string → behaviour) code w t,
    accepted w → ending (eval code) = Abrupt t →
    ∃ r w', execute eval code w = Resolved r w'.

End Terms.

(* ===================================================================== *)
(** ** Properties of the catalog *)
(* ===================================================================== *)

Import Patterns JS Host CodeSandbox Scripts Spec Terms.

(** Settles a decidable closed proposition by evaluating its decision
    procedure. *)
Ltac by_computing := apply (bool_decide_unpack _); vm_compute; exact I.

(** Settles membership in a list that is written out. *)
Ltac by_computing_elem := repeat first [by left | right].

Section CatalogQueries.

(** [find] on any list: what it returns passes the test and comes from
    the list, and it misses only when nothing passes. *)
Lemma find_Some {A} (P : A → Prop) `{!∀ x, Decision (P x)} (l : list A) x :
  find P l = Some x → P x ∧ x ∈ l.
Proof.
  unfold find. intros Hfind.
  destruct (list_find P l) as [[k y]|] eqn:E; simplify_eq/=.
  apply list_find_Some in E as (Hk & HP & _).
  split; [done|]. by eapply list_elem_of_lookup_2.
Qed.

Lemma find_None {A} (P : A → Prop) `{!∀ x, Decision (P x)} (l : list A) :
  find P l = None ↔ Forall (λ x, ¬ P x) l.
Proof.
  unfold find. rewrite fmap_None. apply list_find_None.
Qed.

Lemma find_is_Some {A} (P : A → Prop) `{!∀ x, Decision (P x)} (l : list A) x :
  x ∈ l → P x → is_Some (find P l).
Proof.
  intros Hx HP. destruct (find P l) eqn:E; [by eexists|].
  apply find_None in E. rewrite Forall_forall in E. by destruct (E x Hx).
Qed.

Lemma getPatternById_Some i p :
  getPatternById i = Some p → id p = i ∧ p ∈ allPatterns.
Proof. intros E. by apply (find_Some (λ pattern, id pattern = i)) in E. Qed.

Lemma getPatternById_None i :
  getPatternById i = None ↔ i ∉ id <$> allPatterns.
Proof.
  unfold getPatternById. rewrite find_None, Forall_forall, list_elem_of_fmap.
  split.
  - intros H (p & -> & Hp). by apply (H p).
  - intros H p Hp Heq. apply H. by exists p.
Qed.

(** A filter splits any list of patterns into three: every pattern has
    one of the three categories. *)
Lemma filter_by_category_Permutation (l : list Pattern) :
  filter (λ p, category p = creational) l
    ++ filter (λ p, category p = structural) l
    ++ filter (λ p, category p = behavioral) l ≡ₚ l.
Proof.
  induction l as [|p l IH]; [done|].
  rewrite !filter_cons. destruct p as [? ? [] ?]; simpl.
  - by rewrite IH.
  - rewrite <- Permutation_middle. by rewrite IH.
  - rewrite app_assoc, <- Permutation_middle, <- app_assoc. by rewrite IH.
Qed.

End CatalogQueries.

(** C7.  [getPatternById] queried with the identifier of a record of the
    catalog returns a record with that identifier (and of the catalog);
    queried with any other identifier it returns the not-found value.  It
    is a total function: there is no third outcome. *)
Theorem getPatternById_correct (i : string) :
  (i ∈ id <$> allPatterns →
     ∃ p, getPatternById i = Some p ∧ id p = i ∧ p ∈ allPatterns)
  ∧ (i ∉ id <$> allPatterns → getPatternById i = None).
Proof.
  split.
  - intros Hi. destruct (getPatternById i) as [p|] eqn:E.
    + exists p. destruct (getPatternById_Some _ _ E). auto.
    + by apply getPatternById_None in E.
  - apply getPatternById_None.
Qed.

Lemma getPatternById_correct_witness :
  (∃ p, getPatternById "proxy" = Some p ∧ id p = "proxy" ∧ p ∈ allPatterns)
  ∧ getPatternById "visitor" = None.
Proof.
  split.
  - apply (proj1 (getPatternById_correct "proxy")).
    by_computing.
  - apply (proj2 (getPatternById_correct "visitor")).
    by_computing.
Defined.

(** C5.  Cross-reference integrity of the shipped catalog: every
    identifier listed in the [relatedPatterns] of a record of the catalog
    is found by [getPatternById], and what is found is a record of the
    catalog with that identifier. *)
Theorem relatedPatterns_resolve (p : Pattern) (r : string) :
  p ∈ allPatterns → r ∈ relatedPatterns p →
  ∃ q, getPatternById r = Some q ∧ id q = r ∧ q ∈ allPatterns.
Proof.
  assert (Forall (λ p, Forall (λ r, is_Some (getPatternById r))
                         (relatedPatterns p)) allPatterns) as Hall.
  { by_computing. }
  intros Hp Hr. rewrite Forall_forall in Hall.
  specialize (Hall p Hp). rewrite Forall_forall in Hall.
  destruct (Hall r Hr) as [q Hq]. exists q.
  split; [done|]. by apply getPatternById_Some.
Qed.

Lemma relatedPatterns_resolve_witness :
  ∃ q, getPatternById "strategy" = Some q ∧ id q = "strategy" ∧ q ∈ allPatterns.
Proof.
  apply (relatedPatterns_resolve decoratorPattern "strategy").
  - by_computing.
  - by_computing.
Defined.

(** C8.  [getPatternsByCategory] partitions the catalog: its results for
    creational, structural and behavioral, put end to end, are the catalog
    itself, in which no record occurs twice; the result for a category
    holds exactly the records of that category, in the order of the
    catalog. *)
Theorem getPatternsByCategory_partition :
  getPatternsByCategory creational ++ getPatternsByCategory structural
    ++ getPatternsByCategory behavioral = allPatterns
  ∧ NoDup allPatterns
  ∧ NoDup (id <$> allPatterns)
  ∧ (∀ c, getPatternsByCategory c `sublist_of` allPatterns)
  ∧ (∀ c p, p ∈ getPatternsByCategory c ↔ p ∈ allPatterns ∧ category p = c).
Proof.
  split; [by vm_compute|].
  assert (NoDup (id <$> allPatterns)) as Hids.
  { by_computing. }
  split; [by eapply NoDup_fmap_1|].
  split; [done|].
  split.
  - intros c. apply sublist_filter.
  - intros c p. unfold getPatternsByCategory.
    rewrite list_elem_of_filter. tauto.
Qed.

(* ===================================================================== *)
(** ** Properties of [sanitizeOutput] *)
(* ===================================================================== *)

Section Sanitizer.

Lemma append_cons a (s1 s2 : string) :
  String a s1 +:+ s2 = String a (s1 +:+ s2).
Proof. reflexivity. Qed.

Lemma append_assoc (s1 s2 s3 : string) :
  (s1 +:+ s2) +:+ s3 = s1 +:+ (s2 +:+ s3).
Proof.
  induction s1 as [|a s1 IH]; [done|]. by rewrite !append_cons, IH.
Qed.

Lemma append_nil_r (s : string) : s +:+ "" = s.
Proof. induction s as [|a s IH]; [done|]. by rewrite append_cons, IH. Qed.

Lemma replace_all_app c by_ s1 s2 :
  replace_all c by_ (s1 +:+ s2) = replace_all c by_ s1 +:+ replace_all c by_ s2.
Proof.
  induction s1 as [|a s1 IH]; [done|].
  rewrite append_cons. cbn [replace_all]. by rewrite IH, append_assoc.
Qed.

Lemma occurs_app c s1 s2 :
  occurs c (s1 +:+ s2) = occurs c s1 || occurs c s2.
Proof.
  induction s1 as [|a s1 IH]; [done|].
  rewrite append_cons. cbn [occurs]. by rewrite IH, orb_assoc.
Qed.

(** The chain of five replacements of the source is the
    character-by-character replacement of the specification: no
    replacement text holds a character that a later replacement
    looks for. *)
Lemma sanitizeOutput_cons a s :
  sanitizeOutput (VString (String a s))
  = entity a +:+ sanitizeOutput (VString s).
Proof.
  unfold sanitizeOutput, entity. cbn [replace_all].
  rewrite !replace_all_app. f_equal.
  destruct (Ascii.eqb_spec a "<") as [->|]; [reflexivity|].
  cbn [replace_all]; rewrite ?append_nil_r.
  destruct (Ascii.eqb_spec a ">") as [->|]; [reflexivity|].
  cbn [replace_all]; rewrite ?append_nil_r.
  destruct (Ascii.eqb_spec a dquote) as [->|]; [reflexivity|].
  cbn [replace_all]; rewrite ?append_nil_r.
  destruct (Ascii.eqb_spec a "'") as [->|]; [reflexivity|].
  cbn [replace_all]; rewrite ?append_nil_r.
  destruct (Ascii.eqb_spec a "/") as [->|]; reflexivity.
Qed.

Lemma sanitizeOutput_string s : sanitizeOutput (VString s) = escape_html s.
Proof.
  induction s as [|a s IH]; [done|].
  rewrite sanitizeOutput_cons, IH. done.
Qed.

Lemma html_significant_cases c :
  html_significant c = true →
  c = "<"%char ∨ c = ">"%char ∨ c = dquote ∨ c = "'"%char ∨ c = "/"%char.
Proof.
  unfold html_significant. rewrite !orb_true_iff, !Ascii.eqb_eq. tauto.
Qed.

Lemma entity_clean a c :
  html_significant c = true → occurs c (entity a) = false.
Proof.
  intros Hc. unfold entity.
  destruct (Ascii.eqb_spec a "<") as [->|];
    [by destruct (html_significant_cases c Hc) as [->|[->|[->|[->| ->]]]]|].
  destruct (Ascii.eqb_spec a ">") as [->|];
    [by destruct (html_significant_cases c Hc) as [->|[->|[->|[->| ->]]]]|].
  destruct (Ascii.eqb_spec a dquote) as [->|];
    [by destruct (html_significant_cases c Hc) as [->|[->|[->|[->| ->]]]]|].
  destruct (Ascii.eqb_spec a "'") as [->|];
    [by destruct (html_significant_cases c Hc) as [->|[->|[->|[->| ->]]]]|].
  destruct (Ascii.eqb_spec a "/") as [->|];
    [by destruct (html_significant_cases c Hc) as [->|[->|[->|[->| ->]]]]|].
  cbn [occurs]. rewrite orb_false_r. apply Ascii.eqb_neq.
  by destruct (html_significant_cases c Hc) as [->|[->|[->|[->| ->]]]].
Qed.

Lemma escape_html_clean s c :
  html_significant c = true → occurs c (escape_html s) = false.
Proof.
  intros Hc. induction s as [|a s IH]; [done|]. cbn [escape_html].
  by rewrite occurs_app, entity_clean, IH.
Qed.

End Sanitizer.

(* ===================================================================== *)
(** ** Properties of [execute] *)
(* ===================================================================== *)

Section Execution.

Lemma checkRateLimit_accepted w :
  accepted w → checkRateLimit w = (true, with_lastExecution (now w) w).
Proof.
  unfold accepted, checkRateLimit. intros H.
  destruct (Z.ltb_spec (now w - lastExecution w) MIN_EXECUTION_INTERVAL);
    [lia|done].
Qed.

Lemma checkRateLimit_rejected w :
  now w - lastExecution w < MIN_EXECUTION_INTERVAL →
  checkRateLimit w = (false, w).
Proof.
  unfold checkRateLimit. intros H.
  destruct (Z.ltb_spec (now w - lastExecution w) MIN_EXECUTION_INTERVAL);
    [done|lia].
Qed.

(** An effect through the globals has no hand on the flag, the timer
    and the promise of the call, on the time stamp of the rate limiter,
    or on [sanitizeOutput]. *)
Lemma step_same_control e st : plain e = true → same_control st (step e st).
Proof.
  destruct st as [w fr], e as [m args|m f|ms|d cb| | | | | |]; try done.
  intros _. cbn [step]. unfold call. by destruct (get m (console w)).
Qed.

Lemma step_sanitizeOutput e st :
  plain e = true →
  replaced_sanitizeOutput (step e st).1 = replaced_sanitizeOutput st.1.
Proof. by destruct st as [w fr], e. Qed.

Lemma run_cons e es st : run (e :: es) st = run es (step e st).
Proof. reflexivity. Qed.

Lemma all_calls_here m args es : Call m args ∈ es → args ∈ all_calls es.
Proof.
  intros Hin. unfold all_calls. apply list_elem_of_In, in_flat_map.
  exists (Call m args). split; [by apply list_elem_of_In|by left].
Qed.

Lemma run_same_control es st : plain_script es → same_control st (run es st).
Proof.
  intros Hp. revert st.
  induction Hp as [|e es He _ IH]; intros st; [done|].
  rewrite run_cons.
  destruct (step_same_control e st He) as (?&?&?&?).
  destruct (IH (step e st)) as (?&?&?&?).
  repeat split; congruence.
Qed.

Lemma run_sanitizeOutput es st :
  plain_script es →
  replaced_sanitizeOutput (run es st).1 = replaced_sanitizeOutput st.1.
Proof.
  intros Hp. revert st.
  induction Hp as [|e es He _ IH]; intros st; [done|].
  by rewrite run_cons, IH, step_sanitizeOutput.
Qed.

Lemma capture_with_own w m args :
  own_sanitizeOutput w → capture_with (current_sanitizeOutput w) m args
                         = capture m args.
Proof. unfold own_sanitizeOutput, current_sanitizeOutput. by intros ->. Qed.

(** With the method of the class in place, every line an effect through
    the globals adds to [logs] was stored by a replacement method for a
    console call of the script. *)
Lemma run_logs es st :
  plain_script es → own_sanitizeOutput st.1 →
  ∃ lines, logs (run es st).2 = logs st.2 ++ lines
           ∧ Forall (stored_for es) lines.
Proof.
  intros Hp. revert st.
  induction Hp as [|e es He _ IH]; intros st Hs.
  { exists []. by rewrite app_nil_r. }
  rewrite run_cons.
  assert (own_sanitizeOutput (step e st).1) as Hs'.
  { unfold own_sanitizeOutput. by rewrite step_sanitizeOutput. }
  destruct (IH (step e st) Hs') as (lines & -> & Hl).
  assert (Forall (stored_for (e :: es)) lines) as Hl'.
  { eapply Forall_impl; [done|]. intros line (m & m' & args & ? & ->).
    exists m, m', args. split; [by right|done]. }
  destruct st as [w fr], e as [m args|m f|ms|d cb| | | | | |];
    try done; try (by exists lines).
  cbn [step]. unfold call. destruct (get m (console w)) as [n|m0].
  - by exists lines.
  - exists (capture m0 args :: lines). cbn.
    rewrite (capture_with_own w m0 args Hs), <- app_assoc.
    split; [done|]. constructor; [|done].
    exists m0, m, args. split; [by left|done].
Qed.

(** With the replacement methods and the method of the class in place,
    and a script that leaves them there, every console call stores its
    line. *)
Lemma run_keeps_console es w fr :
  plain_script es → own_sanitizeOutput w →
  console w = captures → keeps_console es →
  logs (run es (w, fr)).2 = logs fr ++ console_lines es.
Proof.
  intros Hp. revert w fr.
  induction Hp as [|e es He _ IH]; intros w fr Hs Hc Hk.
  { by rewrite app_nil_r. }
  assert (keeps_console es) as Hk'.
  { intros m f ?. apply (Hk m f). by right. }
  rewrite run_cons.
  destruct e as [m args|m f|ms|d cb| | | | | |]; try done; cbn [step].
  - rewrite Hc.
    destruct m; cbn [get captures log Host.error warn call];
      rewrite (capture_with_own w _ args Hs), IH by done;
      cbn; by rewrite <- app_assoc.
  - destruct (Hk m f). by left.
  - by rewrite IH.
  - by rewrite IH.
Qed.

Lemma run_now es st : now (run es st).1 = now st.1 + busy_time es.
Proof.
  revert st. induction es as [|e es IH]; intros st; [cbn; lia|].
  rewrite run_cons, IH.
  destruct st as [w fr], e; unfold busy_time; cbn; lia.
Qed.

Variable eval : string → behaviour.

(** What the promise executor does in an accepted call. *)
Lemma executor_entry code w :
  executor eval code (console w)
    (with_console captures (with_lastExecution (now w) w), fresh)
  = match ending (eval code) with
    | Never => None
    | Normal =>
        Some (on_return (console w) (run (effects (eval code)) (entry w)),
              None)
    | Abrupt t =>
        Some (on_throw (console w) t (run (effects (eval code)) (entry w)),
              escapes t (run (effects (eval code)) (entry w)))
    end.
Proof.
  unfold executor, restrictedEval, entry. cbn.
  by destruct (ending (eval code)).
Qed.

(** An accepted call whose script never ends does not return. *)
Lemma execute_never code w :
  accepted w → ending (eval code) = Never → execute eval code w = Hangs.
Proof.
  intros Hw He. unfold execute. rewrite (checkRateLimit_accepted w Hw).
  cbn [negb]. change (console (with_lastExecution (now w) w)) with (console w).
  fold fresh. by rewrite executor_entry, He.
Qed.

(** The ways an accepted call of [execute] goes when the script acts
    through the globals only, by the way the script ends. *)
Lemma execute_accepted code w :
  accepted w → plain_script (effects (eval code)) →
  execute eval code w =
    let st := run (effects (eval code)) (entry w) in
    match ending (eval code) with
    | Never => Hangs
    | Normal =>
        Resolved {| output := logs st.2; error := None |}
                 (with_console (console w) st.1)
    | Abrupt (ThrownUnprintable why) =>
        Rejected (ThrownError why) (with_console (console w) st.1)
    | Abrupt t =>
        Resolved {| output := logs st.2;
                    error := Some ("Error: "
                                   +:+ default "" (thrown_text t)) |}
                 (with_console (console w) st.1)
    end.
Proof.
  intros Hw Hp. unfold execute. rewrite (checkRateLimit_accepted w Hw).
  cbn [negb]. change (console (with_lastExecution (now w) w)) with (console w).
  fold fresh. rewrite executor_entry. cbn zeta.
  destruct (run_same_control (effects (eval code)) (entry w) Hp)
    as (Hc & _ & Hr & _).
  destruct (run (effects (eval code)) (entry w)) as [w1 fr1].
  cbn in Hc, Hr.
  destruct (ending (eval code)) as [|[msg|v|why]|]; [| | | |done];
    unfold on_return, on_throw, escapes, settle; cbn [snd];
    rewrite Hc; cbn; by rewrite Hr.
Qed.

Lemma execute_rejected code w :
  now w - lastExecution w < MIN_EXECUTION_INTERVAL →
  execute eval code w
  = Resolved {| output := []; error := Some rate_limit_message |} w.
Proof.
  intros Hw. unfold execute. by rewrite (checkRateLimit_rejected w Hw).
Qed.

Lemma error_text_not_timeout (text : string) :
  "Error: " +:+ text ≠ timeout_message.
Proof. unfold timeout_message. rewrite !append_cons. discriminate. Qed.

Lemma error_text_not_rate_limit (text : string) :
  "Error: " +:+ text ≠ rate_limit_message.
Proof. unfold rate_limit_message. rewrite !append_cons. discriminate. Qed.

(** What a resolved call is, when the script acts through the globals
    only: a rejection by the rate limiter, or the result of the end of
    the [try] block or of the [catch] block. *)
Lemma execute_resolved_cases code w r w' :
  plain_script (effects (eval code)) →
  execute eval code w = Resolved r w' →
  (now w - lastExecution w < MIN_EXECUTION_INTERVAL
   ∧ r = {| output := []; error := Some rate_limit_message |} ∧ w' = w)
  ∨ (accepted w
     ∧ output r = logs (run (effects (eval code)) (entry w)).2
     ∧ w' = with_console (console w) (run (effects (eval code)) (entry w)).1
     ∧ (ending (eval code) = Normal ∧ error r = None
        ∨ ∃ t text, ending (eval code) = Abrupt t
                    ∧ thrown_text t = Some text
                    ∧ error r = Some ("Error: " +:+ text))).
Proof.
  intros Hp H.
  destruct (Z.lt_ge_cases (now w - lastExecution w) MIN_EXECUTION_INTERVAL)
    as [Hw|Hw].
  - left. rewrite (execute_rejected code w Hw) in H. by simplify_eq.
  - right. rewrite (execute_accepted code w Hw Hp) in H. cbn zeta in H.
    split; [done|].
    destruct (ending (eval code)) as [|[msg|v|why]|]; simplify_eq; cbn.
    + split; [done|]. split; [done|]. by left.
    + split; [done|]. split; [done|]. right. by eexists (ThrownError msg), _.
    + split; [done|]. split; [done|]. right. by eexists (ThrownValue v), _.
Qed.

End Execution.

(* ===================================================================== *)
(** ** The rate limiter *)
(* ===================================================================== *)




(* ===================================================================== *)
(** ** Results, errors and the timeout *)
(* ===================================================================== *)

(** C1.  The timer of [execute] cannot run before the synchronous run of
    the script is over.  So an accepted call whose script never ends does
    not resolve at all: the caller hangs, and no timeout error is
    delivered. *)
Theorem execute_timeout_never_fires (eval : string → behaviour) (code : string)
    (w : World) :
  accepted w → ending (eval code) = Never → execute eval code w = Hangs.
Proof. apply execute_never. Qed.

Lemma execute_timeout_never_fires_witness :
  execute engine endless_loop (page 1700000000000 0) = Hangs.
Proof.
  apply (execute_timeout_never_fires engine endless_loop
           (page 1700000000000 0)).
  - vm_compute. discriminate.
  - reflexivity.
Defined.

(** A script that acts through the globals only never gets the timeout
    error, and when it returns the call resolves with a success at the
    time its work is done: both handlers of the executor disarm the
    timer. *)
Lemma plain_script_never_times_out (eval : string → behaviour) code w :
  plain_script (effects (eval code)) →
  (∀ r w', execute eval code w = Resolved r w' →
           error r ≠ Some timeout_message)
  ∧ (accepted w → ending (eval code) = Normal →
     ∃ r w', execute eval code w = Resolved r w' ∧ error r = None
             ∧ now w' = now w + busy_time (effects (eval code))).
Proof.
  intros Hp. split.
  - intros r w' H.
    destruct (execute_resolved_cases eval code w r w' Hp H)
      as [(_ & -> & _)|(_ & _ & _ & [[_ ->]|(t & text & _ & _ & ->)])];
      [done|done|].
    intros Habs. apply (error_text_not_timeout text). congruence.
  - intros Hw He. rewrite (execute_accepted eval code w Hw Hp), He. cbn zeta.
    eexists _, _. split; [done|]. split; [done|]. cbn.
    by rewrite run_now.
Qed.

(** A script that computes for six seconds and returns gets a success,
    six seconds after the call. *)
Example six_seconds_succeeds :
  execute engine six_seconds (page 1700000000000 0)
  = Resolved {| output := ["WARNING: go"]; error := None |}
      (with_lastExecution 1700000000000 (page 1700000006000 0)).
Proof. reflexivity. Qed.

(** A continuation the script schedules is not waited for: the call
    resolves at once with a success, the timer of the script still
    pending, and what the callback logs later is not in the output. *)
Example late_log_not_awaited :
  execute engine late_log (page 1700000000000 0)
  = Resolved {| output := []; error := None |}
      {| now := 1700000000000; console := native;
         lastExecution := 1700000000000;
         timers := [(1700000006000, [Call console_log [VString "late"]])];
         replaced_sanitizeOutput := None |}.
Proof. reflexivity. Qed.

(** The timeout error is delivered only to a script that keeps the call
    from completing and lets the timer run: one that sets [completed]
    itself and sets it back in a callback. *)
Example rearmed_call_times_out :
  execute engine rearms (page 1700000000000 0)
  = Resolved {| output := []; error := Some timeout_message |}
      (with_lastExecution 1700000000000 (page 1700000005000 0)).
Proof. reflexivity. Qed.

(** C6.  When the script of an accepted call never ends, the promise
    executor does not return, [resolve] is not called and [execute]
    produces no result. *)
Theorem execute_results (eval : string → behaviour) (code : string) (w : World) :
  accepted w → ending (eval code) = Never →
  executor eval code (console w)
    (with_console captures (with_lastExecution (now w) w), fresh) = None
  ∧ execute eval code w = Hangs.
Proof.
  intros Hw He. split; [by rewrite executor_entry, He|].
  by apply execute_never.
Qed.

Lemma execute_results_witness :
  executor engine endless_loop native
    (with_console captures
       (with_lastExecution 1700000000000 (page 1700000000000 0)), fresh) = None
  ∧ execute engine endless_loop (page 1700000000000 0) = Hangs.
Proof.
  apply (execute_results engine endless_loop (page 1700000000000 0)).
  - vm_compute. discriminate.
  - reflexivity.
Defined.

(** When the script acts through the globals only and its synchronous
    run ends with a return or with something that has a string form, the
    executor hands exactly one result to [resolve], a success or a
    failure and never both, and [execute] resolves with it. *)
Lemma plain_script_one_result (eval : string → behaviour) code w :
  accepted w → plain_script (effects (eval code)) →
  (ending (eval code) = Normal
   ∨ ∃ t text, ending (eval code) = Abrupt t ∧ thrown_text t = Some text) →
  ∃ st r, executor eval code (console w)
            (with_console captures (with_lastExecution (now w) w), fresh)
          = Some (st, None)
          ∧ resolutions st.2 = [r]
          ∧ execute eval code w = Resolved r st.1
          ∧ (is_success r ∨ is_failure r)
          ∧ ¬ (is_success r ∧ is_failure r).
Proof.
  intros Hw Hp He.
  rewrite executor_entry, (execute_accepted eval code w Hw Hp). cbn zeta.
  destruct (run_same_control (effects (eval code)) (entry w) Hp)
    as (Hc & _ & Hr & _).
  destruct (run (effects (eval code)) (entry w)) as [w1 fr1].
  cbn in Hc, Hr.
  destruct He as [->|(t & text & -> & Ht)].
  - unfold on_return. rewrite Hc. cbn [negb].
    eexists _, _. split; [reflexivity|]. cbn. rewrite Hr.
    split; [reflexivity|]. split; [done|].
    split; [by left|]. by intros [_ (msg & ? & _)].
  - unfold on_throw, escapes. cbn [snd]. rewrite Hc, Ht. cbn [negb].
    destruct t as [msg|v|why]; [| |done].
    + eexists _, _. split; [reflexivity|]. cbn. rewrite Hr.
      split; [reflexivity|]. split; [done|]. split.
      * right. eexists. split; [done|]. by rewrite !append_cons.
      * by intros [? _].
    + eexists _, _. split; [reflexivity|]. cbn. rewrite Hr.
      split; [reflexivity|]. split; [done|]. split.
      * right. eexists. split; [done|]. by rewrite !append_cons.
      * by intros [? _].
Qed.






(** Nor does every throwing script make the call resolve: when the
    script throws an object without a string form the promise is
    rejected, and when it sets [completed] before it throws the promise
    never settles. *)
Example thrown_value_can_reject :
  ¬ resolves_as_claimed
  ∧ execute engine throws_bare (page 1700000000000 0)
    = Rejected (ThrownError "Cannot convert object to primitive value")
        (with_lastExecution 1700000000000 (page 1700000000000 0))
  ∧ ∃ w', execute engine gives_up_and_throws (page 1700000000000 0)
          = Pending w'.
Proof.
  split; [|split; [reflexivity|by eexists]].
  intros H.
  destruct (H engine throws_bare (page 1700000000000 0)
              (ThrownUnprintable "Cannot convert object to primitive value"))
    as (r & w' & Habs).
  - vm_compute. discriminate.
  - reflexivity.
  - discriminate Habs.
Qed.





(* ===================================================================== *)
(** ** The event loop has turns enough *)
(* ===================================================================== *)

Section EventLoop.

Lemma list_sum_cons (x : nat) (l : list nat) :
  list_sum (x :: l) = (x + list_sum l)%nat.
Proof. reflexivity. Qed.

Lemma next_timer_weight ts t rest :
  next_timer ts = Some (t, rest) →
  list_sum (List.map timer_weight ts)
  = (timer_weight t + list_sum (List.map timer_weight rest))%nat.
Proof.
  revert t rest. induction ts as [|t0 ts IH]; intros t rest H; [done|].
  cbn [next_timer] in H.
  destruct (next_timer ts) as [[t' rest']|] eqn:E.
  - specialize (IH t' rest' eq_refl).
    destruct (t'.1 <? t0.1); simplify_eq; cbn [List.map]; rewrite ?list_sum_cons;
      lia.
  - simplify_eq. destruct ts as [|t1 ts]; [done|].
    cbn [next_timer] in E. destruct (next_timer ts) as [[? ?]|];
      [destruct (_ <? _)|]; done.
Qed.

Lemma next_timer_None ts : next_timer ts = None → ts = [].
Proof.
  destruct ts as [|t ts]; [done|]. cbn [next_timer].
  destruct (next_timer ts) as [[? ?]|]; [destruct (_ <? _)|]; done.
Qed.

Lemma step_pending_turns e st :
  (pending_turns (step e st) ≤ pending_turns st + timers_in e)%nat.
Proof.
  destruct st as [w fr], e as [m args|m f|ms|d cb| | | | | |];
    unfold pending_turns; cbn [step fst snd timers with_console with_now
      with_timers with_lastExecution with_sanitizeOutput timeoutId
      set_completed push resolve clearTimeout timers_in]; try lia.
  - unfold call. destruct (get m (console w)); cbn; lia.
  - rewrite List.map_app, list_sum_app. cbn [List.map].
    rewrite list_sum_cons. change (list_sum []) with 0%nat.
    change (timer_weight ((now w + Z.of_N d)%Z, cb))
      with (S (list_sum (List.map timers_in cb))).
    destruct (timeoutId fr); lia.
Qed.

Lemma run_pending_turns es st :
  (pending_turns (run es st)
   ≤ pending_turns st + list_sum (List.map timers_in es))%nat.
Proof.
  revert st. induction es as [|e es IH]; intros st; [cbn; lia|].
  rewrite run_cons. specialize (IH (step e st)).
  pose proof (step_pending_turns e st).
  cbn [List.map]; rewrite ?list_sum_cons. lia.
Qed.

Lemma on_timeout_pending_turns originals st :
  pending_turns (on_timeout originals st) = pending_turns st.
Proof.
  destruct st as [w fr]. unfold on_timeout.
  by destruct (completed fr).
Qed.

(** A turn uses up one of the timers that are armed or can get armed. *)
Lemma turn_pending_turns originals st st' :
  turn originals st = Some st' →
  (S (pending_turns st') ≤ pending_turns st)%nat.
Proof.
  destruct st as [w fr]. unfold turn.
  assert (∀ t rest, next_timer (timers w) = Some (t, rest) →
            (S (pending_turns
                  (run t.2 (with_timers rest
                              (with_now (Z.max (now w) t.1) w), fr)))
             ≤ pending_turns (w, fr))%nat) as Hscript.
  { intros t rest E.
    pose proof (next_timer_weight _ _ _ E) as Hw.
    pose proof (run_pending_turns t.2
                  (with_timers rest
                     (with_now (Z.max (now w) t.1) w), fr)) as Hr.
    unfold pending_turns in *. cbn [fst snd timers with_timers] in *.
    unfold timer_weight in Hw at 2. lia. }
  assert (∀ due, timeoutId fr = Some due →
            (S (pending_turns
                  (on_timeout originals
                     (with_now (Z.max (now w) due) w, clearTimeout fr)))
             ≤ pending_turns (w, fr))%nat) as Hmine.
  { intros due E. rewrite on_timeout_pending_turns.
    unfold pending_turns. cbn [fst snd timers with_now timeoutId
      clearTimeout]. rewrite E. lia. }
  destruct (next_timer (timers w)) as [[t rest]|] eqn:E,
           (timeoutId fr) as [due|] eqn:Et; intros Ht; simplify_eq.
  - destruct (t.1 <? due); [by apply Hscript|by apply Hmine].
  - by apply Hscript.
  - by apply Hmine.
Qed.

Lemma turn_None originals st :
  pending_turns st = 0%nat → turn originals st = None.
Proof.
  destruct (turn originals st) as [st'|] eqn:E; [|done].
  apply turn_pending_turns in E. lia.
Qed.

(** Once the fuel covers the timers that are armed or can get armed,
    more fuel changes nothing: the loop stops because the promise
    settled or because no timer is left. *)
Lemma event_loop_enough originals n st :
  (pending_turns st ≤ n)%nat →
  event_loop (S n) originals st = event_loop n originals st.
Proof.
  revert st. induction n as [|n IH]; intros st Hn.
  - cbn [event_loop]. destruct (resolutions st.2); [|done].
    rewrite turn_None by lia. done.
  - change (event_loop (S (S n)) originals st)
      with (match resolutions st.2 with
            | r :: _ => Resolved r st.1
            | [] => match turn originals st with
                    | Some st' => event_loop (S n) originals st'
                    | None => Pending st.1
                    end
            end).
    change (event_loop (S n) originals st)
      with (match resolutions st.2 with
            | r :: _ => Resolved r st.1
            | [] => match turn originals st with
                    | Some st' => event_loop n originals st'
                    | None => Pending st.1
                    end
            end).
    destruct (resolutions st.2); [|done].
    destruct (turn originals st) as [st'|] eqn:E; [|done].
    apply IH. apply turn_pending_turns in E. lia.
Qed.

(** The fuel [settle] gives the loop is enough. *)
Lemma event_loop_budget originals st n :
  event_loop (budget st + n) originals st
  = event_loop (budget st) originals st.
Proof.
  induction n as [|n IH]; [by rewrite Nat.add_0_r|].
  rewrite Nat.add_succ_r, event_loop_enough; [done|].
  unfold pending_turns, budget.
  destruct (timeoutId st.2); lia.
Qed.

End EventLoop.

(* ===================================================================== *)
(** ** What reaches the output list *)
(* ===================================================================== *)

Section Lines.

Lemma join_cons sep x y l :
  join sep (x :: y :: l) = x +:+ sep +:+ join sep (y :: l).
Proof. reflexivity. Qed.

Lemma occurs_join_false c sep l :
  occurs c sep = false → Forall (λ x, occurs c x = false) l →
  occurs c (join sep l) = false.
Proof.
  intros Hsep. induction 1 as [|x l Hx Hl IH]; [done|].
  destruct l as [|y l]; [done|].
  by rewrite join_cons, !occurs_app, Hx, Hsep, IH.
Qed.

Lemma occurs_join_true c sep x l :
  x ∈ l → occurs c x = true → occurs c (join sep l) = true.
Proof.
  intros Hin Hx. induction l as [|y l IH].
  { by apply elem_of_nil in Hin. }
  apply elem_of_cons in Hin as [->|Hin].
  - destruct l as [|z l]; [done|].
    by rewrite join_cons, occurs_app, Hx.
  - destruct l as [|z l]; [by apply elem_of_nil in Hin|].
    rewrite join_cons, !occurs_app, IH by done. by rewrite !orb_true_r.
Qed.

Lemma prefix_clean m c : html_significant c = true → occurs c (prefix m) = false.
Proof.
  intros Hc.
  by destruct (html_significant_cases c Hc) as [->|[->|[->|[->| ->]]]], m.
Qed.

(** A line stored for a call whose arguments are all strings holds none
    of the five characters. *)
Lemma capture_strings_clean m (ss : list string) c :
  html_significant c = true → occurs c (capture m (VString <$> ss)) = false.
Proof.
  intros Hc. unfold capture.
  rewrite occurs_app, (prefix_clean m c Hc). cbn [orb].
  apply occurs_join_false.
  - by destruct (html_significant_cases c Hc) as [->|[->|[->|[->| ->]]]].
  - induction ss as [|s ss IH]; constructor; [|done].
    rewrite sanitizeOutput_string. by apply escape_html_clean.
Qed.

(** QuoteJSONString keeps the five characters: four as they are, the
    double quote behind a backslash. *)
Lemma quote_char_keeps c :
  html_significant c = true → occurs c (quote_char c) = true.
Proof.
  intros Hc.
  by destruct (html_significant_cases c Hc) as [->|[->|[->|[->| ->]]]].
Qed.

Lemma quote_body_keeps c s :
  html_significant c = true → occurs c s = true →
  occurs c (quote_body s) = true.
Proof.
  intros Hc. induction s as [|a s IH]; [done|].
  cbn [occurs quote_body]. rewrite occurs_app.
  destruct (Ascii.eqb_spec a c) as [->|]; cbn [orb].
  - intros _. by rewrite quote_char_keeps.
  - intros Hs. rewrite IH by done. apply orb_true_r.
Qed.

Lemma QuoteJSONString_keeps c s :
  html_significant c = true → occurs c s = true →
  occurs c (QuoteJSONString s) = true.
Proof.
  intros Hc Hs. unfold QuoteJSONString. cbn [occurs].
  rewrite occurs_app, quote_body_keeps by done. apply orb_true_r.
Qed.

Lemma object_members_elem l partial k s :
  object_members l = Some partial → (k, SerText s) ∈ l →
  (QuoteJSONString k +:+ ": " +:+ s) ∈ partial.
Proof.
  revert partial. induction l as [|[k' [| |s']] l IH]; intros partial Hm Hin.
  - by apply elem_of_nil in Hin.
  - done.
  - apply elem_of_cons in Hin as [?|Hin]; [done|]. by apply IH.
  - cbn in Hm. destruct (object_members l) as [partial'|]; [|done].
    cbn in Hm. simplify_eq.
    apply elem_of_cons in Hin as [?|Hin]; simplify_eq; [by left|].
    right. by apply IH.
Qed.


Lemma occurs_wrap ch o c i partial x out :
  wrap o c i (Some partial) = SerText out → x ∈ partial →
  occurs ch x = true → occurs ch out = true.
Proof.
  intros Hw Hin Hx. destruct partial as [|y partial].
  { by apply elem_of_nil in Hin. }
  pose proof (occurs_join_true ch ("," +:+ newline +:+ i +:+ gap) x
                (y :: partial) Hin Hx) as HJ.
  unfold wrap in Hw. cbv zeta in Hw. revert Hw HJ.
  generalize (join ("," +:+ newline +:+ i +:+ gap) (y :: partial)).
  intros J [= <-] HJ. rewrite !occurs_app, HJ. by rewrite !orb_true_r.
Qed.

End Lines.

Lemma array_items_elem l partial s :
  array_items l = Some partial → SerText s ∈ l → s ∈ partial.
Proof.
  revert partial. induction l as [|[| |s'] l IH]; intros partial Hm Hin.
  - by apply elem_of_nil in Hin.
  - done.
  - cbn in Hm. destruct (array_items l) as [partial'|]; [|done].
    cbn in Hm. simplify_eq.
    apply elem_of_cons in Hin as [?|Hin]; [done|]. right. by apply IH.
  - cbn in Hm. destruct (array_items l) as [partial'|]; [|done].
    cbn in Hm. simplify_eq.
    apply elem_of_cons in Hin as [?|Hin]; simplify_eq; [by left|].
    right. by apply IH.
Qed.

(** C4, as the code has it.  The replacement chain of [sanitizeOutput]
    replaces each of the five characters of a string by its entity: it is
    the character-by-character replacement, and its result holds none of
    the five characters.  A line a replacement method stores with that
    [sanitizeOutput] for string arguments holds none of the five
    characters.  When the [sanitizeOutput] of the class is in place and
    the script acts through the globals only, every line of the output
    of [execute], as it is when the call resolves, is such a line,
    stored for a console call of the script, and a script that logs
    [<script>] gets the one line [&lt;script&gt;], in which [<script>]
    does not occur. *)
Theorem console_strings_are_escaped (eval : string → behaviour) (code : string)
    (w : World) :
  (∀ s, sanitizeOutput (VString s) = escape_html s)
  ∧ (∀ s c, html_significant c = true →
            occurs c (sanitizeOutput (VString s)) = false)
  ∧ (plain_script (effects (eval code)) → own_sanitizeOutput w →
     ∀ r w', execute eval code w = Resolved r w' →
             Forall (stored_for (effects (eval code))) (output r))
  ∧ (∀ m ss c, html_significant c = true →
               occurs c (capture m (VString <$> ss)) = false)
  ∧ (accepted w → own_sanitizeOutput w →
     eval code = {| effects := [Call console_log [VString "<script>"]];
                    ending := Normal |} →
     ∃ w', execute eval code w
           = Resolved {| output := ["&lt;script&gt;"]; error := None |} w'
           ∧ includes "&lt;script&gt;" "&lt;script&gt;" = true
           ∧ includes "<script>" "&lt;script&gt;" = false).
Proof.
  split; [apply sanitizeOutput_string|].
  split. { intros s c Hc. rewrite sanitizeOutput_string.
           by apply escape_html_clean. }
  split.
  { intros Hp Hs r w' H.
    destruct (execute_resolved_cases eval code w r w' Hp H)
      as [(_ & -> & _)|(_ & -> & _)]; [constructor|].
    assert (own_sanitizeOutput (entry w).1) as Hs' by exact Hs.
    destruct (run_logs (effects (eval code)) (entry w) Hp Hs')
      as (lines & -> & Hl). done. }
  split; [apply capture_strings_clean|].
  intros Hw Hs He.
  assert (plain_script (effects (eval code))) as Hp.
  { rewrite He. by repeat constructor. }
  rewrite (execute_accepted eval code w Hw Hp), He. cbn zeta.
  eexists. split; [|by vm_compute].
  cbn. unfold call. cbn. by rewrite (capture_with_own _ _ _ Hs).
Qed.

Lemma console_strings_are_escaped_witness :
  (∃ w', execute engine logs_markup (page 1700000000000 0)
         = Resolved {| output := ["&lt;script&gt;"]; error := None |} w'
         ∧ includes "&lt;script&gt;" "&lt;script&gt;" = true
         ∧ includes "<script>" "&lt;script&gt;" = false)
  ∧ Forall (stored_for (effects (engine throws_boom))) ["&lt;b&gt;"].
Proof.
  split.
  - apply (proj2 (proj2 (proj2 (proj2
             (console_strings_are_escaped engine logs_markup
                (page 1700000000000 0)))))).
    + vm_compute. discriminate.
    + reflexivity.
    + reflexivity.
  - apply (proj1 (proj2 (proj2
             (console_strings_are_escaped engine throws_boom
                (page 1700000000000 0))))
             ltac:(repeat constructor) eq_refl
             {| output := ["&lt;b&gt;"]; error := Some "Error: boom" |}
             (with_lastExecution 1700000000000 (page 1700000000000 0))).
    reflexivity.
Defined.

(** C4, as the claim words it, fails: the replacement methods look
    [sanitizeOutput] up on the class each time, and the script can
    assign it.  After [this.sanitizeOutput = String] the string
    [<script>] handed to [console.log] is stored as it is. *)
Lemma replaced_sanitizer_stores_raw :
  execute engine replaces_sanitizer (page 1700000000000 0)
  = Resolved {| output := ["<script>"]; error := None |}
      (with_sanitizeOutput ToString
         (with_lastExecution 1700000000000 (page 1700000000000 0)))
  ∧ ¬ escaping_as_claimed.
Proof.
  split; [reflexivity|].
  intros H.
  destruct (H engine replaces_sanitizer (page 1700000000000 0) "<script>")
    as (r & w' & Hx & Hin).
  - vm_compute. discriminate.
  - reflexivity.
  - reflexivity.
  - intros m f Hin. change (effects (engine replaces_sanitizer))
      with [SetSanitizeOutput ToString;
            Call console_log [VString "<script>"]] in Hin.
    repeat (apply elem_of_cons in Hin as [Hin|Hin]; [discriminate Hin|]).
    by apply elem_of_nil in Hin.
  - right. by left.
  - assert (execute engine replaces_sanitizer (page 1700000000000 0)
            = Resolved {| output := ["<script>"]; error := None |}
                (with_sanitizeOutput ToString
                   (with_lastExecution 1700000000000
                      (page 1700000000000 0)))) as Hreal by reflexivity.
    rewrite Hreal in Hx. injection Hx as <- _. cbn in Hin.
    apply elem_of_cons in Hin as [Hin|Hin]; [discriminate Hin|].
    by apply elem_of_nil in Hin.
Qed.

(** A line the script pushes onto [logs] itself reaches the output as it
    is, too; no console call stores it. *)
Example pushed_line_is_raw :
  execute engine pushes_raw (page 1700000000000 0)
  = Resolved {| output := ["<script>"]; error := None |}
      (with_lastExecution 1700000000000 (page 1700000000000 0)).
Proof. reflexivity. Qed.



(** A script that logs an object with the string [<script>] in a property
    gets that string in its output as it is. *)
Example logs_object_unescaped :
  ∃ line w', execute engine logs_object (page 1700000000000 0)
             = Resolved {| output := [line]; error := None |} w'
             ∧ includes "<script>" line = true.
Proof. eexists _, _. split; [by vm_compute|]. by vm_compute. Qed.


(* ===================================================================== *)
(** ** More on [sanitizeOutput] *)
(* ===================================================================== *)

Section SanitizerAlgebra.

Lemma escape_html_app s1 s2 :
  escape_html (s1 +:+ s2) = escape_html s1 +:+ escape_html s2.
Proof.
  induction s1 as [|a s1 IH]; [done|].
  rewrite append_cons. cbn [escape_html]. by rewrite IH, append_assoc.
Qed.

Lemma entity_plain a : html_significant a = false → entity a = String a "".
Proof.
  unfold html_significant, entity. rewrite !orb_false_iff.
  by intros ((((-> & ->) & ->) & ->) & ->).
Qed.

Lemma clean_cons a s :
  clean (String a s) ↔ html_significant a = false ∧ clean s.
Proof.
  unfold clean. split.
  - intros H. split.
    + destruct (html_significant a) eqn:Ha; [|done].
      specialize (H a Ha). cbn [occurs] in H.
      by rewrite Ascii.eqb_refl in H.
    + intros c Hc. specialize (H c Hc). cbn [occurs] in H.
      by apply orb_false_iff in H as [_ ?].
  - intros [Ha Hs] c Hc. cbn [occurs]. rewrite (Hs c Hc), orb_false_r.
    apply Ascii.eqb_neq. intros ->. congruence.
Qed.

Lemma escape_html_clean_id s : clean s → escape_html s = s.
Proof.
  induction s as [|a s IH]; [done|].
  rewrite clean_cons. intros [Ha Hs]. cbn [escape_html].
  by rewrite (entity_plain a Ha), IH.
Qed.

Lemma string_length_app (s1 s2 : string) :
  String.length (s1 +:+ s2) = (String.length s1 + String.length s2)%nat.
Proof.
  induction s1 as [|a s1 IH]; [done|].
  rewrite append_cons. cbn [String.length]. by rewrite IH.
Qed.

Lemma entity_length a :
  (1 ≤ String.length (entity a) ≤ 6)%nat.
Proof.
  unfold entity.
  repeat match goal with
         | |- context [Ascii.eqb a ?x] => destruct (Ascii.eqb a x)
         end; cbn; lia.
Qed.

Lemma sanitize_app s1 s2 :
  sanitizeOutput (VString (s1 +:+ s2))
  = sanitizeOutput (VString s1) +:+ sanitizeOutput (VString s2).
Proof. rewrite !sanitizeOutput_string. apply escape_html_app. Qed.

Lemma sanitize_fixed s : sanitizeOutput (VString s) = s ↔ clean s.
Proof.
  rewrite sanitizeOutput_string. split.
  - intros Hs c Hc. rewrite <- Hs. by apply escape_html_clean.
  - apply escape_html_clean_id.
Qed.

End SanitizerAlgebra.

(** X1.  [sanitizeOutput] on strings goes through concatenation: the
    stored form of [s1 + s2] is the stored form of [s1] followed by that
    of [s2]. *)
Theorem sanitizeOutput_concat (s1 s2 : string) :
  sanitizeOutput (VString (s1 +:+ s2))
  = sanitizeOutput (VString s1) +:+ sanitizeOutput (VString s2).
Proof. apply sanitize_app. Qed.

(** X2.  The strings [sanitizeOutput] returns unchanged are exactly those
    without any of the five characters; the ampersand, in particular, is
    never replaced. *)
Theorem sanitizeOutput_fixed_points (s : string) :
  sanitizeOutput (VString s) = s ↔ clean s.
Proof. apply sanitize_fixed. Qed.

(** X3.  Sanitizing twice is sanitizing once.  So a string with one of
    the five characters and its sanitized form are two different strings
    stored as the same line: the stored line does not tell whether the
    script wrote the character or its entity. *)
Theorem sanitizeOutput_idempotent (s : string) :
  sanitizeOutput (VString (sanitizeOutput (VString s)))
  = sanitizeOutput (VString s)
  ∧ (¬ clean s → sanitizeOutput (VString s) ≠ s).
Proof.
  split.
  - apply sanitize_fixed. intros c Hc.
    rewrite sanitizeOutput_string. by apply escape_html_clean.
  - intros Hn Hs. by apply Hn, sanitize_fixed.
Qed.

Lemma sanitizeOutput_idempotent_witness :
  sanitizeOutput (VString "a<b") ≠ "a<b".
Proof.
  apply (proj2 (sanitizeOutput_idempotent "a<b")).
  intros H. specialize (H "<"%char eq_refl). discriminate H.
Defined.

(** X4.  Sanitizing a string never shortens it and makes it at most six
    times as long. *)
Theorem sanitizeOutput_length (s : string) :
  (String.length s ≤ String.length (sanitizeOutput (VString s))
   ≤ 6 * String.length s)%nat.
Proof.
  rewrite sanitizeOutput_string.
  induction s as [|a s IH]; [cbn; lia|].
  cbn [escape_html String.length]. rewrite string_length_app.
  pose proof (entity_length a). lia.
Qed.

Section FlatValues.

Lemma string_of_uint_clean (d : Decimal.uint) :
  clean (NilEmpty.string_of_uint d).
Proof.
  intros c Hc.
  induction d as [|d IH|d IH|d IH|d IH|d IH|d IH|d IH|d IH|d IH|d IH];
    [done|..]; cbn [NilEmpty.string_of_uint occurs]; rewrite IH;
    by destruct (html_significant_cases c Hc) as [->|[->|[->|[->| ->]]]].
Qed.

Lemma Z_to_string_clean (n : Z) : clean (Z_to_string n).
Proof.
  intros c Hc. unfold Z_to_string, NilZero.string_of_int.
  assert (∀ d, occurs c (NilZero.string_of_uint d) = false) as Hu.
  { intros d. unfold NilZero.string_of_uint.
    destruct d; try apply (string_of_uint_clean _ c Hc).
    by destruct (html_significant_cases c Hc) as [->|[->|[->|[->| ->]]]]. }
  destruct (Z.to_int n) as [d|d]; [apply Hu|].
  cbn [occurs]. rewrite Hu.
  by destruct (html_significant_cases c Hc) as [->|[->|[->|[->| ->]]]].
Qed.

Lemma flat_clean (v : value) : flat v = true → clean (sanitizeOutput v).
Proof.
  intros Hv c Hc. destruct v as [| |[]|n|n|s| |]; try done.
  - by destruct (html_significant_cases c Hc) as [->|[->|[->|[->| ->]]]].
  - by destruct (html_significant_cases c Hc) as [->|[->|[->|[->| ->]]]].
  - by destruct (html_significant_cases c Hc) as [->|[->|[->|[->| ->]]]].
  - by destruct (html_significant_cases c Hc) as [->|[->|[->|[->| ->]]]].
  - by apply Z_to_string_clean.
  - by apply Z_to_string_clean.
  - rewrite sanitizeOutput_string. by apply escape_html_clean.
Qed.

Lemma capture_flat_clean m (args : list value) :
  Forall (λ v, flat v = true) args → clean (capture m args).
Proof.
  intros Hargs c Hc. unfold capture.
  rewrite occurs_app, (prefix_clean m c Hc). cbn [orb].
  apply occurs_join_false.
  - by destruct (html_significant_cases c Hc) as [->|[->|[->|[->| ->]]]].
  - induction Hargs as [|v args Hv _ IH]; constructor; [|done].
    by apply flat_clean.
Qed.

End FlatValues.

(** X5.  For a value that is not an array or a plain object (undefined,
    null, a boolean, a number, a BigInt, a string), the text
    [sanitizeOutput] returns holds none of the five characters. *)
Theorem sanitizeOutput_flat_clean (v : value) :
  flat v = true → clean (sanitizeOutput v).
Proof. apply flat_clean. Qed.

Lemma sanitizeOutput_flat_clean_witness : clean (sanitizeOutput (VNumber (-42))).
Proof. apply (sanitizeOutput_flat_clean (VNumber (-42))). reflexivity. Defined.

(* ===================================================================== *)
(** ** More on the stored lines *)
(* ===================================================================== *)




(* ===================================================================== *)
(** ** More on [execute] *)
(* ===================================================================== *)

Section ExecuteMore.

Variable eval : string → behaviour.

(** No error message [execute] builds itself is the empty string. *)
Lemma execute_error_truthy code w r w' :
  plain_script (effects (eval code)) →
  execute eval code w = Resolved r w' → error r ≠ Some "".
Proof.
  intros Hp H. destruct (execute_resolved_cases eval code w r w' Hp H)
    as [(_ & -> & _)|(_ & _ & _ & [[_ ->]|(t & text & _ & _ & ->)])]; done.
Qed.

Lemma execute_flat_clean code w r w' :
  plain_script (effects (eval code)) → own_sanitizeOutput w →
  logs_flat_values (effects (eval code)) →
  execute eval code w = Resolved r w' → Forall clean (output r).
Proof.
  intros Hp Hs Hf H.
  destruct (execute_resolved_cases eval code w r w' Hp H)
    as [(_ & -> & _)|(_ & -> & _)]; [constructor|].
  assert (own_sanitizeOutput (entry w).1) as Hs' by exact Hs.
  destruct (run_logs (effects (eval code)) (entry w) Hp Hs')
    as (lines & -> & Hl).
  cbn. eapply Forall_impl; [done|].
  intros line (m & m' & args & Hin & ->).
  apply capture_flat_clean.
  unfold logs_flat_values in Hf. rewrite Forall_forall in Hf.
  by eapply Hf, all_calls_here.
Qed.

End ExecuteMore.



(** X10.  For a script that acts through the globals only, a resolved
    call carries the rate-limit message exactly when it was made less
    than 1000 ms after the stored time stamp: at 1000 ms sharp the call
    is accepted, and no message [execute] builds for an accepted call is
    that message. *)
Theorem execute_rate_limit_exact (eval : string → behaviour) (code : string)
    (w : World) (r : ExecutionResult) (w' : World) :
  plain_script (effects (eval code)) →
  execute eval code w = Resolved r w' →
  (error r = Some rate_limit_message
   ↔ now w - lastExecution w < MIN_EXECUTION_INTERVAL).
Proof.
  intros Hp H. destruct (execute_resolved_cases eval code w r w' Hp H)
    as [(Hw & -> & _)|(Hw & _ & _ & He)].
  - done.
  - unfold accepted in Hw. split; [|lia].
    destruct He as [[_ ->]|(t & text & _ & _ & ->)]; [done|].
    intros Habs. destruct (error_text_not_rate_limit text). congruence.
Qed.

Lemma execute_rate_limit_exact_witness :
  error {| output := ["&lt;script&gt;"]; error := None |}
    = Some rate_limit_message
  ↔ 1700000001000 - 1700000000000 < MIN_EXECUTION_INTERVAL.
Proof.
  apply (execute_rate_limit_exact engine logs_markup
           (page 1700000001000 1700000000000) _
           (with_lastExecution 1700000001000
              (page 1700000001000 1700000000000))
           ltac:(repeat constructor)).
  reflexivity.
Defined.

(** X11.  The interval of the rate limiter runs from the start of the
    accepted call, not from its end: when an accepted call whose script
    acts through the globals only resolves, the time since the stored
    stamp is the time the script computed, so a call made right then is
    accepted exactly when the script computed for 1000 ms or more. *)
Theorem execute_stamp_is_start (eval : string → behaviour) (code : string)
    (w : World) (r : ExecutionResult) (w' : World) :
  accepted w → plain_script (effects (eval code)) →
  execute eval code w = Resolved r w' →
  now w' - lastExecution w' = busy_time (effects (eval code))
  ∧ (accepted w' ↔ MIN_EXECUTION_INTERVAL ≤ busy_time (effects (eval code))).
Proof.
  intros Hw Hp H.
  destruct (execute_resolved_cases eval code w r w' Hp H)
    as [(Hr & _)|(_ & _ & -> & _)]; [unfold accepted in Hw; lia|].
  assert (now (with_console (console w)
                 (run (effects (eval code)) (entry w)).1)
          - lastExecution (with_console (console w)
                             (run (effects (eval code)) (entry w)).1)
          = busy_time (effects (eval code))) as Hd.
  { destruct (run_same_control (effects (eval code)) (entry w) Hp)
      as (_ & _ & _ & Hl).
    cbn [now lastExecution with_console]. rewrite run_now, Hl. cbn. lia. }
  split; [done|]. unfold accepted. by rewrite Hd.
Qed.

Lemma execute_stamp_is_start_witness :
  accepted (with_lastExecution 1700000000000 (page 1700000006000 0))
  ↔ MIN_EXECUTION_INTERVAL ≤ busy_time (effects (engine six_seconds)).
Proof.
  apply (proj2 (execute_stamp_is_start engine six_seconds
                  (page 1700000000000 0)
                  {| output := ["WARNING: go"]; error := None |} _
                  ltac:(vm_compute; discriminate)
                  ltac:(repeat constructor) eq_refl)).
Defined.

(** X12.  Whichever of the three handlers runs first settles the call;
    any handler that runs after it changes nothing: it does not call
    [resolve] again and does not touch the console. *)
Theorem handlers_settle_once (originals : Console) (h1 h2 : handler)
    (st : World * Frame) :
  completed (handle originals h1 st).2 = true
  ∧ handle originals h2 (handle originals h1 st) = handle originals h1 st
  ∧ (length (resolutions (handle originals h1 st).2)
     ≤ S (length (resolutions st.2)))%nat.
Proof.
  destruct st as [w fr].
  assert (completed (handle originals h1 (w, fr)).2 = true) as Hc.
  { destruct h1; cbn [handle]; unfold on_return, on_throw, on_timeout;
      destruct (completed fr) eqn:E; try done.
    by destruct (thrown_text t). }
  split; [done|]. split.
  - destruct (handle originals h1 (w, fr)) as [w1 fr1]. cbn in Hc.
    destruct h2; cbn [handle]; unfold on_return, on_throw, on_timeout;
      by rewrite Hc.
  - destruct h1; cbn [handle]; unfold on_return, on_throw, on_timeout;
      destruct (completed fr); try destruct (thrown_text t);
      cbn; rewrite ?length_app; cbn; lia.
Qed.

(* ===================================================================== *)
(** ** The catalog seen from the pages *)
(* ===================================================================== *)

Section CatalogMore.

(** In a list without two records of the same identifier, looking a
    record up by its own identifier finds that record. *)
Lemma find_by_own_id (l : list Pattern) (p : Pattern) :
  NoDup (id <$> l) → p ∈ l → find (λ pattern, id pattern = id p) l = Some p.
Proof.
  intros Hnd Hp.
  destruct (find_is_Some (λ pattern, id pattern = id p) l p Hp eq_refl)
    as [q Hq].
  rewrite Hq. f_equal.
  apply find_Some in Hq as [Hid Hin].
  apply list_elem_of_lookup in Hp as [i Hi], Hin as [j Hj].
  assert (i = j) as ->.
  { eapply NoDup_lookup; [done| |]; rewrite list_lookup_fmap.
    - by rewrite Hi.
    - rewrite Hj. cbn. by rewrite Hid. }
  congruence.
Qed.

Lemma allPatterns_ids_NoDup : NoDup (id <$> allPatterns).
Proof. by_computing. Qed.

Lemma filter_by_category_lengths (l : list Pattern) :
  (length (filter (λ p, category p = creational) l)
   + length (filter (λ p, category p = structural) l)
   + length (filter (λ p, category p = behavioral) l) = length l)%nat.
Proof.
  rewrite <- (Permutation_length (filter_by_category_Permutation l)).
  rewrite !length_app. lia.
Qed.

Lemma lookup_own_id (p : Pattern) :
  p ∈ allPatterns → getPatternById (id p) = Some p.
Proof. apply find_by_own_id, allPatterns_ids_NoDup. Qed.

End CatalogMore.

(** X13.  Looking a record of the catalog up by its own identifier
    returns that very record: identifiers are unique, so [getPatternById]
    never answers with another record of the same identifier. *)
Theorem getPatternById_own_id (p : Pattern) :
  p ∈ allPatterns → getPatternById (id p) = Some p.
Proof. apply lookup_own_id. Qed.

Lemma getPatternById_own_id_witness :
  getPatternById (id facadePattern) = Some facadePattern.
Proof. apply (getPatternById_own_id facadePattern). by_computing. Defined.

(** X14.  On the list page the three category badges add up to the total
    badge, and the cards of the sections, in page order, are the cards of
    the catalog, one per record, in catalog order. *)
Theorem PatternsPage_covers_catalog :
  (let '(c, s, b, total) := Pages.badges Pages.PatternsPage in
   (c + s + b = total)%nat)
  ∧ mjoin (snd <$> Pages.sections Pages.PatternsPage)
    = Pages.PatternCard <$> allPatterns
  ∧ NoDup (Pages.href <$> (Pages.PatternCard <$> allPatterns)).
Proof.
  split; [apply filter_by_category_lengths|].
  split; [by vm_compute|]. by_computing.
Qed.

(** X15.  The page of a slug exists exactly for the slugs that
    [generateStaticParams] lists; for any other slug [PatternPage] calls
    [notFound()].  The page found shows the name and the category of the
    record whose identifier is the slug. *)
Theorem PatternPage_exists_iff (slug : string) :
  (is_Some (Pages.PatternPage slug) ↔ slug ∈ Pages.generateStaticParams)
  ∧ (∀ view, Pages.PatternPage slug = Some view →
       ∃ p, p ∈ allPatterns ∧ id p = slug
            ∧ Pages.heading view = name p
            ∧ Pages.badge view
              = (Pages.categoryColors (category p), category p)).
Proof.
  unfold Pages.PatternPage, Pages.generateStaticParams. split.
  - destruct (getPatternById slug) as [p|] eqn:E.
    + split; [|by eexists]. intros _.
      apply getPatternById_Some in E as [<- Hp].
      apply list_elem_of_fmap. by exists p.
    + split; [by intros [? ?]|]. intros Hin.
      by apply getPatternById_None in E.
  - intros view Hv. destruct (getPatternById slug) as [p|] eqn:E; [|done].
    apply getPatternById_Some in E as [<- Hp]. simplify_eq. by exists p.
Qed.

(** X16.  The card of a record of the catalog leads to the page of that
    record: the page of its identifier exists and shows its name and its
    category, on the badge variant the card uses. *)
Theorem PatternCard_leads_to_its_page (p : Pattern) :
  p ∈ allPatterns →
  Pages.href (Pages.PatternCard p) = "/patterns/" +:+ id p
  ∧ ∃ view, Pages.PatternPage (id p) = Some view
            ∧ Pages.heading view = Pages.label (Pages.PatternCard p)
            ∧ Pages.badge view
              = (Pages.categoryColors (category p), category p).
Proof.
  intros Hp. split; [done|]. unfold Pages.PatternPage.
  rewrite (lookup_own_id p Hp). by eexists.
Qed.

Lemma PatternCard_leads_to_its_page_witness :
  ∃ view, Pages.PatternPage "observer" = Some view
          ∧ Pages.heading view = "Observer"
          ∧ Pages.badge view = (Pages.accent, behavioral).
Proof.
  apply (PatternCard_leads_to_its_page observerPattern). by_computing.
Defined.

Lemma related_ids_found :
  Forall (λ p, relatedPatterns p ≠ []
               ∧ Forall (λ r, is_Some (getPatternById r)) (relatedPatterns p))
    allPatterns.
Proof. by_computing. Qed.

Lemma relatedBadge_found (r : string) :
  is_Some (getPatternById r) →
  ∃ q, q ∈ allPatterns ∧ Pages.relatedBadge r = Some (Pages.PatternCard q)
       ∧ is_Some (Pages.PatternPage (id q)).
Proof.
  intros [q Hq]. exists q. unfold Pages.relatedBadge. rewrite Hq.
  apply getPatternById_Some in Hq as [<- Hin].
  split; [done|]. split; [done|].
  unfold Pages.PatternPage. rewrite (lookup_own_id q Hin). by eexists.
Qed.

(** X17.  On every page that exists the box of related patterns is
    rendered and none of its badges is missing: each related identifier
    gives a link, and that link is the card link of a record of the
    catalog, labelled with the name of that record, so it leads to a page
    that exists. *)
Theorem PatternPage_related_links (slug : string) (view : Pages.PatternView) :
  Pages.PatternPage slug = Some view →
  ∃ links, Pages.related view = Some (Some <$> links)
           ∧ links ≠ []
           ∧ ∀ l, l ∈ links →
                  ∃ q, q ∈ allPatterns ∧ l = Pages.PatternCard q
                       ∧ is_Some (Pages.PatternPage (id q)).
Proof.
  intros Hv. unfold Pages.PatternPage in Hv.
  destruct (getPatternById slug) as [p|] eqn:E; [|done].
  apply getPatternById_Some in E as [_ Hp]. simplify_eq. cbn.
  pose proof related_ids_found as Hall. rewrite Forall_forall in Hall.
  destruct (Hall p Hp) as [Hne Hrs].
  rewrite bool_decide_eq_true_2
    by (destruct (relatedPatterns p); [done|cbn; lia]).
  assert (∃ links,
            Pages.relatedBadge <$> relatedPatterns p = Some <$> links
            ∧ ∀ l, l ∈ links →
                   ∃ q, q ∈ allPatterns ∧ l = Pages.PatternCard q
                        ∧ is_Some (Pages.PatternPage (id q)))
    as (links & Hl & Hq).
  { clear Hne. induction Hrs as [|r rs Hr _ (links & IH & Hq)].
    - exists []. split; [done|]. intros l Hin. by apply elem_of_nil in Hin.
    - destruct (relatedBadge_found r Hr) as (q & Hin & Hb & Hpage).
      exists (Pages.PatternCard q :: links). split.
      + cbn. by rewrite Hb, IH.
      + intros l [->|Hl]%elem_of_cons; [by exists q|by apply Hq]. }
  exists links. split; [by rewrite Hl|]. split; [|done].
  intros ->. destruct (relatedPatterns p); [done|discriminate Hl].
Qed.

Lemma PatternPage_related_links_witness :
  ∃ links, Pages.related
             {| Pages.heading := "Composite";
                Pages.badge := (Pages.secondary, structural);
                Pages.related :=
                  Some [Some {| Pages.href := "/patterns/decorator";
                                Pages.label := "Decorator" |}] |}
           = Some (Some <$> links)
           ∧ links ≠ []
           ∧ ∀ l, l ∈ links →
                  ∃ q, q ∈ allPatterns ∧ l = Pages.PatternCard q
                       ∧ is_Some (Pages.PatternPage (id q)).
Proof.
  apply (PatternPage_related_links "composite"). reflexivity.
Defined.

(* ===================================================================== *)
(** ** The [logs] array after the promise settled *)
(* ===================================================================== *)

(** Every result of a call holds the [logs] array itself.  A script can
    keep a replacement method and call it from a timer, after the
    promise settled and the console was restored: the line lands on the
    array the caller holds.  For a script that acts through the globals
    only, that is the one way the array changes. *)
Section LiveArray.

Variable allowed : list (list value).

Lemma next_timer_elem ts t rest :
  next_timer ts = Some (t, rest) → t ∈ ts ∧ rest ⊆ ts.
Proof.
  revert t rest. induction ts as [|t0 ts IH]; intros t rest H; [done|].
  cbn [next_timer] in H.
  destruct (next_timer ts) as [[t' rest']|] eqn:E.
  - destruct (IH t' rest' eq_refl) as [Ht Hr].
    destruct (t'.1 <? t0.1); simplify_eq.
    + split; [by right|].
      intros x [->|Hx]%elem_of_cons; [by left|right; by apply Hr].
    + split; [by left|]. intros x Hx. by right.
  - simplify_eq. split; [by left|]. intros x Hx. by apply elem_of_nil in Hx.
Qed.

Lemma plain_callback d cb : plain (SetTimeout d cb) = true → plain_script cb.
Proof.
  cbn [plain]. rewrite forallb_forall. intros H.
  apply Forall_forall. intros e He. by apply H, list_elem_of_In.
Qed.

Lemma step_kept_to e st :
  plain e = true → calls_in e ⊆ allowed →
  kept_to allowed st → kept_to allowed (step e st).
Proof.
  intros He Hc (Hs & Ht & Hl).
  destruct st as [w fr], e as [m args|m f|ms|d cb| | | | | |]; try done.
  - cbn [step]. unfold call. destruct (get m (console w)) as [n|m0]; [done|].
    split; [done|]. split; [done|]. cbn. apply Forall_app. split; [done|].
    constructor; [|done]. exists m0, args.
    split; [apply Hc; by left|]. by apply capture_with_own.
  - split; [done|]. split; [|done]. cbn. apply Forall_app. split; [done|].
    constructor; [|done]. split; [by eapply plain_callback|done].
Qed.

Lemma run_kept_to es st :
  plain_script es → all_calls es ⊆ allowed →
  kept_to allowed st → kept_to allowed (run es st).
Proof.
  intros Hp. revert st.
  induction Hp as [|e es He _ IH]; intros st Hc Hk; [done|].
  rewrite run_cons. unfold all_calls in Hc. cbn [flat_map] in Hc.
  apply IH.
  - intros x Hx. apply Hc, elem_of_app. by right.
  - apply step_kept_to; [done| |done].
    intros x Hx. apply Hc, elem_of_app. by left.
Qed.

Lemma on_return_kept_to originals st :
  kept_to allowed st → kept_to allowed (on_return originals st).
Proof.
  destruct st as [w fr]. unfold on_return.
  by destruct (completed fr).
Qed.

Lemma on_throw_kept_to originals t st :
  kept_to allowed st → kept_to allowed (on_throw originals t st).
Proof.
  destruct st as [w fr]. unfold on_throw.
  destruct (completed fr); [done|]. by destruct (thrown_text t).
Qed.

Lemma on_timeout_kept_to originals st :
  kept_to allowed st → kept_to allowed (on_timeout originals st).
Proof.
  destruct st as [w fr]. unfold on_timeout.
  by destruct (completed fr).
Qed.

Lemma turn_kept_to originals st st' :
  turn originals st = Some st' → kept_to allowed st → kept_to allowed st'.
Proof.
  destruct st as [w fr]. unfold turn. intros Ht (Hs & Hts & Hl).
  assert (∀ t rest, next_timer (timers w) = Some (t, rest) →
            kept_to allowed
              (run t.2 (with_timers rest
                          (with_now (Z.max (now w) t.1) w), fr)))
    as Hscript.
  { intros t rest E. apply next_timer_elem in E as [Hin Hsub].
    rewrite Forall_forall in Hts. destruct (Hts t Hin) as [Hp Hc].
    apply run_kept_to; [done|done|].
    split; [done|]. split; [|done].
    apply Forall_forall. intros x Hx. by apply Hts, Hsub. }
  assert (∀ due, kept_to allowed
                   (on_timeout originals
                      (with_now (Z.max (now w) due) w, clearTimeout fr)))
    as Hmine.
  { intros due. by apply on_timeout_kept_to. }
  destruct (next_timer (timers w)) as [[t rest]|] eqn:E,
           (timeoutId fr) as [due|]; simplify_eq.
  - destruct (t.1 <? due); [by apply Hscript|apply Hmine].
  - by apply Hscript.
  - apply Hmine.
Qed.

Lemma later_kept_to n originals st :
  kept_to allowed st → kept_to allowed (later n originals st).
Proof.
  revert st. induction n as [|n IH]; intros st Hk; [done|].
  cbn [later]. destruct (turn originals st) as [st'|] eqn:E; [|done].
  by eapply IH, turn_kept_to.
Qed.

End LiveArray.

(** The state the promise executor leaves, for a script that acts
    through the globals only, called with the method of the class in
    place and no timer of an earlier script pending. *)
Lemma executor_kept_to (eval : string → behaviour) code w st raised :
  plain_script (effects (eval code)) → own_sanitizeOutput w →
  timers w = [] →
  executor eval code (console w)
    (with_console captures (with_lastExecution (now w) w), fresh)
  = Some (st, raised) →
  kept_to (all_calls (effects (eval code))) st.
Proof.
  intros Hp Hs Ht. rewrite executor_entry.
  assert (kept_to (all_calls (effects (eval code)))
            (run (effects (eval code)) (entry w))) as Hk.
  { apply run_kept_to; [done|done|].
    split; [done|]. split; [|by constructor].
    unfold entry. cbn. rewrite Ht. constructor. }
  destruct (ending (eval code)) as [|t|]; intros H; simplify_eq.
  - by apply on_return_kept_to.
  - by apply on_throw_kept_to.
Qed.

(** Whatever number of turns of the event loop later, every line of the
    array was stored by a replacement method, with the [sanitizeOutput]
    of the class, for a console call of the script or of a callback of
    its timers. *)
Lemma logs_later_stored (eval : string → behaviour) code w st raised n :
  plain_script (effects (eval code)) → own_sanitizeOutput w →
  timers w = [] →
  executor eval code (console w)
    (with_console captures (with_lastExecution (now w) w), fresh)
  = Some (st, raised) →
  Forall (stored_by_script (effects (eval code)))
    (logs (later n (console w) st).2).
Proof.
  intros Hp Hs Ht H.
  by destruct (later_kept_to _ n (console w) st
                 (executor_kept_to eval code w st raised Hp Hs Ht H))
    as (_ & _ & Hl).
Qed.

(** So when those calls hand undefined, null, booleans, numbers, BigInts
    and strings only, no line of the array ever holds one of the five
    characters. *)
Lemma logs_later_clean (eval : string → behaviour) code w st raised n :
  plain_script (effects (eval code)) → own_sanitizeOutput w →
  timers w = [] → logs_flat_values (effects (eval code)) →
  executor eval code (console w)
    (with_console captures (with_lastExecution (now w) w), fresh)
  = Some (st, raised) →
  Forall clean (logs (later n (console w) st).2).
Proof.
  intros Hp Hs Ht Hf H.
  eapply Forall_impl; [by eapply logs_later_stored|].
  intros line (m & args & Hin & ->). apply capture_flat_clean.
  unfold logs_flat_values in Hf. rewrite Forall_forall in Hf. by apply Hf.
Qed.

(** A script that keeps [console.log] and calls it from a timer: the
    call resolves at once with an empty output, and one turn later the
    array that result holds has the line of the late call. *)
Example kept_method_logs_later :
  ∃ st, executor engine keeps_method native
          (with_console captures
             (with_lastExecution 1700000000000 (page 1700000000000 0)),
           fresh) = Some (st, None)
        ∧ execute engine keeps_method (page 1700000000000 0)
          = Resolved {| output := []; error := None |} st.1
        ∧ logs (later 1 native st).2 = ["&lt;late&gt;"].
Proof. eexists. split; [reflexivity|]. split; reflexivity. Qed.

(* ===================================================================== *)
(** ** The playground *)
(* ===================================================================== *)

Section PlaygroundFacts.

Variable eval : string → behaviour.

Lemma runCode_resolved w ui r w' :
  execute eval (CodePlayground.code ui) w = Resolved r w' →
  CodePlayground.runCode eval w ui
  = (CodePlayground.finished r (CodePlayground.started ui), Some w').
Proof. intros H. unfold CodePlayground.runCode. by rewrite H. Qed.

Lemma truthy_nonempty (msg : string) :
  msg ≠ "" → CodePlayground.truthy (Some msg) = true.
Proof. intros Hne. cbn. by destruct (String.eqb_spec msg ""). Qed.

(** The serialized text of an array or object keeps each of the five
    characters of its string properties and elements. *)
Lemma serialized_keeps (v : value) out s c :
  JSON_stringify v = SerText out → string_field v s →
  html_significant c = true → occurs c s = true → occurs c out = true.
Proof.
  intros Hj Hf Hc Ho.
  destruct v as [| | | | | |elems|props]; try done.
  - unfold JSON_stringify in Hj. cbn [serialize] in Hj. cbn in Hf.
    destruct (array_items _) as [partial|] eqn:Ep; [|done].
    eapply (occurs_wrap c _ _ _ partial (QuoteJSONString s)); [done| |].
    + eapply array_items_elem; [done|].
      apply list_elem_of_In, (in_map (serialize ("" +:+ gap)) elems (VString s)).
      by apply list_elem_of_In.
    + by apply QuoteJSONString_keeps.
  - unfold JSON_stringify in Hj. cbn [serialize] in Hj.
    destruct Hf as [k Hf].
    destruct (object_members _) as [partial|] eqn:Ep; [|done].
    eapply (occurs_wrap c _ _ _ partial
              (QuoteJSONString k +:+ ": " +:+ QuoteJSONString s)); [done| |].
    + eapply object_members_elem; [done|].
      apply list_elem_of_In,
        (in_map (λ '(k, e), (k, serialize ("" +:+ gap) e)) props (k, VString s)).
      by apply list_elem_of_In.
    + rewrite !occurs_app, (QuoteJSONString_keeps c s) by done.
      by rewrite !orb_true_r.
Qed.

Lemma sanitize_serialized (v : value) out :
  flat v = false → JSON_stringify v = SerText out → sanitizeOutput v = out.
Proof.
  intros Hv Hj. destruct v; try done; unfold sanitizeOutput;
    cbn [typeof is_null String.eqb Ascii.eqb Bool.eqb andb negb];
    by rewrite Hj.
Qed.

Lemma console_lines_elem m args es :
  Call m args ∈ es → capture m args ∈ console_lines es.
Proof.
  intros Hin. unfold console_lines. apply list_elem_of_omap.
  by exists (Call m args).
Qed.

End PlaygroundFacts.

(** X18.  When the script in the editor acts through the globals only
    and the promise of [execute] resolves, [runCode] leaves the
    playground not running, showing the output of the result and exactly
    its error: an error [execute] reports is never dropped by the
    truthiness test (no error message [execute] builds is the empty
    string), and a success clears the error of an earlier run. *)
Theorem runCode_shows_result (eval : string → behaviour) (w : World)
    (ui : CodePlayground.State) (r : ExecutionResult) (w' : World) :
  plain_script (effects (eval (CodePlayground.code ui))) →
  execute eval (CodePlayground.code ui) w = Resolved r w' →
  CodePlayground.runCode eval w ui
  = ({| CodePlayground.code := CodePlayground.code ui;
        CodePlayground.output := output r;
        CodePlayground.error := error r;
        CodePlayground.isRunning := false |}, Some w').
Proof.
  intros Hp H. rewrite (runCode_resolved eval w ui r w' H).
  unfold CodePlayground.finished. cbn. do 2 f_equal.
  pose proof (execute_error_truthy eval _ w r w' Hp H) as Hne.
  destruct (error r) as [msg|]; [|done]. cbn.
  destruct (String.eqb_spec msg ""); [by subst|done].
Qed.

Lemma runCode_shows_result_witness :
  CodePlayground.runCode engine (page 1700000000000 0)
    {| CodePlayground.code := throws_boom;
       CodePlayground.output := ["old"];
       CodePlayground.error := Some "stale";
       CodePlayground.isRunning := false |}
  = ({| CodePlayground.code := throws_boom;
        CodePlayground.output := ["&lt;b&gt;"];
        CodePlayground.error := Some "Error: boom";
        CodePlayground.isRunning := false |},
     Some (with_lastExecution 1700000000000 (page 1700000000000 0))).
Proof.
  apply (runCode_shows_result engine (page 1700000000000 0)
           {| CodePlayground.code := throws_boom;
              CodePlayground.output := ["old"];
              CodePlayground.error := Some "stale";
              CodePlayground.isRunning := false |}
           {| output := ["&lt;b&gt;"]; error := Some "Error: boom" |}).
  - by repeat constructor.
  - reflexivity.
Defined.

(** A result with an empty error string, which only a script that calls
    [resolve] itself can produce, is shown as a success. *)
Example empty_error_is_dropped :
  (CodePlayground.runCode engine (page 1700000000000 0)
     (CodePlayground.mount resolves_empty_error)).1
  = {| CodePlayground.code := resolves_empty_error;
       CodePlayground.output := [];
       CodePlayground.error := None;
       CodePlayground.isRunning := false |}.
Proof. reflexivity. Qed.



(** X21.  Reset puts the code of the pattern back and empties the output
    but keeps the error: after a run that resolved with a non-empty
    error, Reset leaves that error message on screen, over an empty
    output. *)
Theorem resetCode_keeps_error (eval : string → behaviour) (w : World)
    (ui : CodePlayground.State) (r : ExecutionResult) (w' : World)
    (msg pattern_code : string) :
  execute eval (CodePlayground.code ui) w = Resolved r w' →
  error r = Some msg → msg ≠ "" →
  CodePlayground.resetCode pattern_code (CodePlayground.runCode eval w ui).1
  = {| CodePlayground.code := pattern_code;
       CodePlayground.output := [];
       CodePlayground.error := Some msg;
       CodePlayground.isRunning := false |}
  ∧ CodePlayground.output_card
      (CodePlayground.resetCode pattern_code
         (CodePlayground.runCode eval w ui).1) = true.
Proof.
  intros H He Hne. rewrite (runCode_resolved eval w ui r w' H).
  unfold CodePlayground.finished, CodePlayground.resetCode,
    CodePlayground.output_card.
  cbn [fst CodePlayground.code CodePlayground.output CodePlayground.error
       CodePlayground.isRunning].
  rewrite He, (truthy_nonempty msg Hne). cbn [length].
  by rewrite (truthy_nonempty msg Hne), orb_true_r.
Qed.

Lemma resetCode_keeps_error_witness :
  CodePlayground.resetCode "class Singleton {}"
    (CodePlayground.runCode engine (page 1700000000000 0)
       (CodePlayground.mount throws_boom)).1
  = {| CodePlayground.code := "class Singleton {}";
       CodePlayground.output := [];
       CodePlayground.error := Some "Error: boom";
       CodePlayground.isRunning := false |}
  ∧ CodePlayground.output_card
      (CodePlayground.resetCode "class Singleton {}"
         (CodePlayground.runCode engine (page 1700000000000 0)
            (CodePlayground.mount throws_boom)).1) = true.
Proof.
  apply (resetCode_keeps_error engine (page 1700000000000 0)
           (CodePlayground.mount throws_boom)
           {| output := ["&lt;b&gt;"]; error := Some "Error: boom" |}
           (with_lastExecution 1700000000000 (page 1700000000000 0))).
  - reflexivity.
  - reflexivity.
  - discriminate.
Defined.

(** X22.  Take a script that acts through the globals only and hands
    its console calls, in its run and in the callbacks of its timers,
    undefined, null, booleans, numbers, BigInts and strings only, run
    while the [sanitizeOutput] of the class is in place.  If no line on
    screen holds any of the five characters before the run, none does
    after it, however the run goes.  And the array the result holds,
    onto which a replacement method the script kept can push later,
    holds no such line any number of turns of the event loop later (no
    timer of an earlier script pending at the call, no other script run
    in between). *)
Theorem playground_flat_values_clean (eval : string → behaviour) (w : World)
    (ui : CodePlayground.State) :
  plain_script (effects (eval (CodePlayground.code ui))) →
  own_sanitizeOutput w →
  logs_flat_values (effects (eval (CodePlayground.code ui))) →
  (Forall clean (CodePlayground.inner_html ui) →
   Forall clean
     (CodePlayground.inner_html (CodePlayground.runCode eval w ui).1))
  ∧ (timers w = [] →
     ∀ st raised n,
       executor eval (CodePlayground.code ui) (console w)
         (with_console captures (with_lastExecution (now w) w), fresh)
       = Some (st, raised) →
       Forall clean (logs (later n (console w) st).2)).
Proof.
  intros Hp Hs Hf. split.
  - intros Hui.
    unfold CodePlayground.runCode, CodePlayground.inner_html.
    destruct (execute eval (CodePlayground.code ui) w)
      as [r w'| |t w'|w'] eqn:E.
    + cbn. by eapply execute_flat_clean.
    + done.
    + cbn. constructor.
    + cbn. constructor.
  - intros Ht st raised n H. by eapply logs_later_clean.
Qed.

Lemma playground_flat_values_clean_witness :
  Forall clean
    (CodePlayground.inner_html
       (CodePlayground.runCode engine (page 1700000000000 0)
          (CodePlayground.mount keeps_method)).1)
  ∧ Forall clean
      (logs (later 1 native
               (on_return native
                  (run (effects (engine keeps_method))
                     (entry (page 1700000000000 0))))).2).
Proof.
  destruct (playground_flat_values_clean engine (page 1700000000000 0)
              (CodePlayground.mount keeps_method)) as [Hnow Hlater].
  - by repeat constructor.
  - reflexivity.
  - by repeat constructor.
  - split.
    + apply Hnow. constructor.
    + apply (Hlater eq_refl _ None 1%nat). reflexivity.
Defined.

(** X23.  Markup inside an object reaches the page.  Take an accepted
    run, with the [sanitizeOutput] of the class in place, of a script
    that returns, acts through the globals only and leaves the console
    methods alone.  When it logs an array or object that
    [JSON.stringify] can serialize, each of the five characters in one
    of its string properties or elements occurs in a line the playground
    injects as inner HTML. *)
Theorem playground_object_markup_unescaped (eval : string → behaviour)
    (w : World) (ui : CodePlayground.State) (m : method) (v : value)
    (out s : string) (c : ascii) :
  accepted w → own_sanitizeOutput w →
  ending (eval (CodePlayground.code ui)) = Normal →
  plain_script (effects (eval (CodePlayground.code ui))) →
  keeps_console (effects (eval (CodePlayground.code ui))) →
  Call m [v] ∈ effects (eval (CodePlayground.code ui)) →
  JSON_stringify v = SerText out → string_field v s →
  html_significant c = true → occurs c s = true →
  ∃ line,
    line ∈ CodePlayground.inner_html (CodePlayground.runCode eval w ui).1
    ∧ occurs c line = true.
Proof.
  intros Hw Hs He Hp Hk Hin Hj Hf Hc Ho.
  assert (execute eval (CodePlayground.code ui) w
          = Resolved {| output := console_lines
                                    (effects (eval (CodePlayground.code ui)));
                        error := None |}
              (with_console (console w)
                 (run (effects (eval (CodePlayground.code ui))) (entry w)).1))
    as Hx.
  { rewrite (execute_accepted eval _ w Hw Hp), He. cbn zeta.
    unfold entry. by rewrite run_keeps_console. }
  rewrite (runCode_resolved eval w ui _ _ Hx). cbn.
  exists (capture m [v]). split; [by apply console_lines_elem|].
  unfold capture. rewrite occurs_app. cbn [List.map join String.concat].
  rewrite (sanitize_serialized v out), (serialized_keeps v out s c)
    by (done || by destruct v).
  apply orb_true_r.
Qed.

Lemma playground_object_markup_unescaped_witness :
  ∃ line,
    line ∈ CodePlayground.inner_html
             (CodePlayground.runCode engine (page 1700000000000 0)
                (CodePlayground.mount logs_object)).1
    ∧ occurs "<" line = true.
Proof.
  apply (playground_object_markup_unescaped engine (page 1700000000000 0)
           (CodePlayground.mount logs_object) console_log
           (VObject [("html", VString "<script>")])
           (String "{" (newline +:+ "  " +:+ QuoteJSONString "html" +:+ ": "
                        +:+ QuoteJSONString "<script>" +:+ newline +:+ "}"))
           "<script>" "<").
  - vm_compute. discriminate.
  - reflexivity.
  - reflexivity.
  - by repeat constructor.
  - intros m f Hin. vm_compute in Hin.
    apply elem_of_cons in Hin as [Hin|Hin]; [discriminate Hin|].
    by apply elem_of_nil in Hin.
  - by left.
  - reflexivity.
  - exists "html". by left.
  - reflexivity.
  - reflexivity.
Defined.
